(** * devbeacons-dashboard: the API wrappers and the log export

    A shallow embedding of [src/services/api.ts] (the three fetch wrappers and
    the log normalisation inside [fetchWorkflowLogs]) and of the [LogViewer]
    component of [src/components/LogViewer.tsx] ([downloadLogs], [loadLogs],
    the grouping by category), followed by the properties its specification
    states about them and by further properties of the code.

    The payloads are untyped at run time ([response.json()] is [any]), so the
    embedding works on JavaScript values and spells out what each primitive
    the code calls does on every one of them, including when it throws. *)

From Stdlib Require Import String Ascii List ZArith Lia Bool Decimal DecimalString.
Import ListNotations.
Open Scope string_scope.

(** ** The JavaScript fragment the code runs on *)

Module JS.

(** A run-time value: what [JSON.parse] can build, plus [undefined], which
    reading a missing property gives.  Numbers are modelled as integers (the
    API's numbers are counters); the only thing the code does with a number is
    test whether it is truthy.  An [Obj] lists its own properties in the order
    [Object.keys] enumerates them (index-like keys first, then the others in
    the order of the JSON text); a real object has no key twice, and a read
    of a key listed twice here finds the first. *)
#[warning="-register-all"]
Inductive value : Type :=
| Undefined
| Null
| Bool (b : bool)
| Num (n : Z)
| Str (s : string)
| Arr (elements : list value)
| Obj (props : list (string * value)).

(** What a [throw] carries: [new Error(msg)], or one of the built-in errors
    the engine raises itself. *)
Inductive error : Type :=
| Error (msg : string)
| TypeError
| SyntaxError.

(** A computation either returns or throws. *)
Inductive result (A : Type) : Type :=
| Ok (a : A)
| Throw (e : error).
Arguments Ok {A} a.
Arguments Throw {A} e.

Definition bind {A B} (c : result A) (k : A -> result B) : result B :=
  match c with
  | Ok a => k a
  | Throw e => Throw e
  end.

Notation "x <- c ;; k" := (bind c (fun x => k))
  (at level 61, c at next level, right associativity).

(** [xs.forEach(f)] where [f] updates a captured variable: the variable is
    threaded through, and the first throw ends the loop. *)
Fixpoint forEach {A S} (xs : list A) (f : A -> S -> result S) (s : S) : result S :=
  match xs with
  | [] => Ok s
  | x :: xs' => s' <- f x s ;; forEach xs' f s'
  end.

(** [xs.map(f)] on a true array, with a callback that may throw. *)
Fixpoint array_map {A B} (f : A -> result B) (xs : list A) : result (list B) :=
  match xs with
  | [] => Ok []
  | x :: xs' => y <- f x ;; ys <- array_map f xs' ;; Ok (y :: ys)
  end.

(** ToBoolean. *)
Definition truthy (v : value) : bool :=
  match v with
  | Undefined | Null => false
  | Bool b => b
  | Num n => negb (n =? 0)%Z
  | Str s => negb (s =? "")
  | Arr _ | Obj _ => true
  end.

Definition index_key (i : nat) : string := NilEmpty.string_of_uint (Nat.to_uint i).

Fixpoint indexed {A} (i : nat) (xs : list A) : list (string * A) :=
  match xs with
  | [] => []
  | x :: xs' => (index_key i, x) :: indexed (S i) xs'
  end.

Fixpoint chars (s : string) : list value :=
  match s with
  | EmptyString => []
  | String c s' => Str (String c EmptyString) :: chars s'
  end.

(** The own enumerable properties of a value, in [Object.keys] order.
    [undefined] and [null] cannot be converted to an object; a boolean or a
    number has none; a string and an array have their indices. *)
Definition own_props (v : value) : result (list (string * value)) :=
  match v with
  | Undefined | Null => Throw TypeError
  | Bool _ | Num _ => Ok []
  | Str s => Ok (indexed 0 (chars s))
  | Arr l => Ok (indexed 0 l)
  | Obj ps => Ok ps
  end.

(** [Object.keys(v)]. *)
Definition Object_keys (v : value) : result (list string) :=
  ps <- own_props v ;; Ok (map fst ps).

Fixpoint lookup (k : string) (ps : list (string * value)) : value :=
  match ps with
  | [] => Undefined
  | (k', v) :: ps' => if k' =? k then v else lookup k ps'
  end.

(** [v.k] and [v[k]]: a property read.  It throws on [undefined] and [null]
    and gives [undefined] for a property the value does not have.  Inherited
    properties ([length], [map], ...) are not in this table; the code reads
    only the payload's field names and keys that [Object.keys] returned. *)
Definition get (v : value) (k : string) : result value :=
  ps <- own_props v ;; Ok (lookup k ps).

(** [Array.isArray(v)]. *)
Definition isArray (v : value) : bool :=
  match v with
  | Arr _ => true
  | _ => false
  end.

Fixpoint starts_with (p s : string) : bool :=
  match p, s with
  | EmptyString, _ => true
  | String a p', String b s' => (a =? b)%char && starts_with p' s'
  | String _ _, EmptyString => false
  end.

(** [String.prototype.includes]: [sub] occurs somewhere in [s]; the
    comparison is by code unit, so it is case-sensitive. *)
Fixpoint string_includes (s sub : string) : bool :=
  starts_with sub s ||
  match s with
  | EmptyString => false
  | String _ s' => string_includes s' sub
  end.

Definition is_string (x : string) (v : value) : bool :=
  match v with
  | Str s => s =? x
  | _ => false
  end.

(** [v.includes(x)] for a string [x].  A string searches for a substring, an
    array for an element equal to [x]; no other JSON value has a callable
    [includes], so the call throws. *)
Definition includes (v : value) (x : string) : result bool :=
  match v with
  | Str s => Ok (string_includes s x)
  | Arr l => Ok (existsb (is_string x) l)
  | _ => Throw TypeError
  end.

Fixpoint drop (n : nat) (s : string) : string :=
  match n, s with
  | O, _ => s
  | S n', String _ s' => drop n' s'
  | S _, EmptyString => EmptyString
  end.

(** [s.replace(pat, rep)] with a string pattern: only the first occurrence of
    [pat] is replaced ([rep] has no [$] sequence in the code). *)
Fixpoint replace (s pat rep : string) : string :=
  if starts_with pat s then rep ++ drop (String.length pat) s
  else match s with
       | EmptyString => EmptyString
       | String c s' => String c (replace s' pat rep)
       end.

(** ToString, and [xs.join(sep)], which prints [undefined] and [null] as the
    empty string. *)
Fixpoint ToString (v : value) : string :=
  match v with
  | Undefined => "undefined"
  | Null => "null"
  | Bool true => "true"
  | Bool false => "false"
  | Num n => NilZero.string_of_int (Z.to_int n)
  | Str s => s
  | Arr l =>
      String.concat ","
        (map (fun x => match x with
                       | Undefined | Null => ""
                       | _ => ToString x
                       end) l)
  | Obj _ => "[object Object]"
  end.

Definition join (xs : list value) (sep : string) : string :=
  String.concat sep
    (map (fun x => match x with
                   | Undefined | Null => ""
                   | _ => ToString x
                   end) xs).

End JS.

(** ** [src/services/api.ts] *)

Module Api.
Import JS.

Definition API_BASE_URL : string :=
  "https://devbecons-node-backend-gwfbckg9fbatg9dz.canadacentral-01.azurewebsites.net".

(** The interfaces.  The fields are declared [string] or [number], but they
    are filled from an [any] payload without a check, so they hold whatever
    the payload held.  [type] and [category] are the optional fields of
    [LogEntry]: [None] is an absent ([undefined]) field. *)
Record Repository := { repoName : value }.

Record Workflow := { id : value; display_title : value }.

Record WorkflowStats := {
  success : value;
  failure : value;
  progress : value;
  cancel : value
}.

Record LogEntry := {
  message : value;
  type : option string;
  category : option string
}.

Record LogFile := { name : string; logs : list LogEntry }.

(** What [fetch] resolved with: the [ok] flag of the status, and what
    [response.json()] gives (it throws when the body is not JSON). *)
Record Response := { ok : bool; json : result value }.

(** The outcome of a wrapper: what it wrote with [console.error], and how its
    promise settled. *)
Record outcome (A : Type) := {
  console_error : list (string * error);
  settled : result A
}.
Arguments console_error {A} o.
Arguments settled {A} o.

(** [try { body } catch (error) { console.error(label, error); throw error; }] *)
Definition try_catch {A} (label : string) (body : result A) : outcome A :=
  match body with
  | Ok a => {| console_error := []; settled := Ok a |}
  | Throw e => {| console_error := [(label, e)]; settled := Throw e |}
  end.

(** [v.map(f)]: only an array has a callable [map]. *)
Definition map_method {B} (v : value) (f : value -> result B) : result (list B) :=
  match v with
  | Arr l => array_map f l
  | _ => Throw TypeError
  end.

(** [a || b] on values. *)
Definition or_else (a b : value) : value := if truthy a then a else b.

(** The type detection of lines 119-126. *)
Definition detect_type (log : value) : result string :=
  s <- includes log "success" ;;
  c <- (if s then Ok true else includes log "completed") ;;
  if c then Ok "success" else
  w <- includes log "warning" ;;
  c <- (if w then Ok true else includes log "waiting") ;;
  if c then Ok "warning" else
  e <- includes log "error" ;;
  c <- (if e then Ok true else includes log "failed") ;;
  if c then Ok "error" else
  Ok "info".

(** Lines 128-132: the entry pushed for one line of one category. *)
Definition push_entry (category : string) (log : value) (entries : list LogEntry)
  : result (list LogEntry) :=
  ty <- detect_type log ;;
  Ok (entries ++ [{| message := log;
                     type := Some ty;
                     category := if category =? "SingleLogs" then None
                                 else Some category |}])%list.

(** Lines 113-135: one category of one file. *)
Definition process_category (fileData : value) (category : string)
    (entries : list LogEntry) : result (list LogEntry) :=
  logs <- get fileData category ;;
  match logs with
  | Arr l => forEach l (push_entry category) entries
  | _ => Ok entries
  end.

(** Lines 108-143: one file of one job. *)
Definition process_file (jobName : string) (jobLogs : value) (fileName : string)
    (logFiles : list LogFile) : result (list LogFile) :=
  fileData <- get jobLogs fileName ;;
  categories <- Object_keys fileData ;;
  entries <- forEach categories (process_category fileData) [] ;;
  if (0 <? List.length entries)%nat
  then Ok (logFiles ++ [{| name := jobName ++ "/" ++ fileName;
                           logs := entries |}])%list
  else Ok logFiles.

(** Lines 105-144: one job. *)
Definition process_job (cleanedLogs : value) (jobName : string)
    (logFiles : list LogFile) : result (list LogFile) :=
  jobLogs <- get cleanedLogs jobName ;;
  files <- Object_keys jobLogs ;;
  forEach files (process_file jobName jobLogs) logFiles.

(** Lines 101-147 of [fetchWorkflowLogs]: the normalisation of the parsed
    payload [data] into log files. *)
Definition normalize (data : value) : result (list LogFile) :=
  cleanedLogs <- get data "cleanedLogs" ;;
  if truthy cleanedLogs then
    jobs <- Object_keys cleanedLogs ;;
    forEach jobs (process_job cleanedLogs) []
  else Ok [].

Section Wrappers.

(** The network: the response each URL is answered with, or the error
    [fetch] rejects with. *)
Variable fetch : string -> result Response.

Definition fetchRepositories (accessToken : string) : outcome (list Repository) :=
  try_catch "Error fetching repositories:"
    (response <- fetch (API_BASE_URL ++ "/user/repos/" ++ accessToken) ;;
     if negb (ok response) then Throw (Error "Failed to fetch repositories") else
     data <- json response ;;
     repoNames <- get data "repoNames" ;;
     map_method repoNames (fun name => Ok {| repoName := name |})).

Definition fetchWorkflows (accessToken ownerName repoName : string)
  : outcome (list Workflow * WorkflowStats) :=
  try_catch "Error fetching workflows:"
    (response <- fetch (API_BASE_URL ++ "/user/repos/" ++ accessToken ++ "/"
                          ++ ownerName ++ "/" ++ repoName) ;;
     if negb (ok response) then Throw (Error "Failed to fetch workflows") else
     data <- json response ;;
     storeLogs <- get data "storeLogs" ;;
     workflows <-
       match storeLogs with
       | Undefined | Null => Ok []
       | _ => map_method storeLogs
                (fun log =>
                   i <- get log "id" ;;
                   t <- get log "display_title" ;;
                   Ok {| id := i; display_title := t |})
       end ;;
     s <- get data "success" ;;
     f <- get data "failure" ;;
     p <- get data "Progress" ;;
     c <- get data "Cancel" ;;
     Ok (workflows,
         {| success := or_else s (Num 0);
            failure := or_else f (Num 0);
            progress := or_else p (Num 0);
            cancel := or_else c (Num 0) |})).

Definition fetchWorkflowLogs (accessToken ownerName repoName workflowId : string)
  : outcome (list LogFile) :=
  try_catch "Error fetching workflow logs:"
    (response <- fetch (API_BASE_URL ++ "/user/repos/" ++ accessToken ++ "/"
                          ++ ownerName ++ "/" ++ repoName ++ "/" ++ workflowId
                          ++ "/getLogs") ;;
     if negb (ok response) then Throw (Error "Failed to fetch workflow logs") else
     data <- json response ;;
     normalize data).

End Wrappers.

End Api.

(** ** [downloadLogs] of [src/components/LogViewer.tsx]

    The function is the same in both versions of the component (the tabbed one
    calls its state [activeTab], the accordion one [activeFile]). *)

Module LogViewer.
Import JS Api.

Definition newline : string := String "010"%char EmptyString.

(** What a click on Download hands to the browser: the blob, its MIME type
    and the [download] attribute of the link. *)
Record Download := {
  content : string;
  blob_type : string;
  download : string
}.

(** [None] is the early [return]: nothing is downloaded. *)
Definition downloadLogs (repoName workflowTitle : string)
    (logFiles : list LogFile) (activeTab : string) : option Download :=
  if (List.length logFiles =? 0)%nat then None else
  match find (fun file => name file =? activeTab) logFiles with
  | None => None
  | Some activeFile =>
      Some {| content := join (map message (logs activeFile)) newline;
              blob_type := "text/plain";
              download := repoName ++ "-" ++ workflowTitle ++ "-"
                          ++ replace activeTab "/" "-" ++ ".txt" |}
  end.

End LogViewer.

(** ** The vocabulary of the specification

    Total read-outs of a payload, used to state what the normaliser
    produces. *)

Module LogModel.
Import JS Api.

Definition nullish (v : value) : bool :=
  match v with
  | Undefined | Null => true
  | _ => false
  end.

(** The keys of a mapping in traversal order, and the value under a key; a
    value that has no properties has no keys. *)
Definition keys_of (v : value) : list string :=
  match Object_keys v with
  | Ok ks => ks
  | Throw _ => []
  end.

Definition prop (v : value) (k : string) : value :=
  match get v k with
  | Ok x => x
  | Throw _ => Undefined
  end.

(** The lines of a category: its elements when it is an array, none
    otherwise. *)
Definition lines (v : value) : list value :=
  match v with
  | Arr l => l
  | _ => []
  end.

(** The lines of a file, each with the key of its category: categories in
    key order, lines in array order. *)
Definition source_lines (fileData : value) : list (string * value) :=
  flat_map (fun c => map (pair c) (lines (prop fileData c))) (keys_of fileData).

(** The sum of the lengths of a file's array-valued categories. *)
Definition total_lines (fileData : value) : nat :=
  list_sum (map (fun c => List.length (lines (prop fileData c))) (keys_of fileData)).

(** The (job, file) pairs of a payload in traversal order: job keys first,
    then the file keys of each job. *)
Definition job_file_pairs (cleanedLogs : value) : list (string * string) :=
  flat_map (fun j => map (pair j) (keys_of (prop cleanedLogs j))) (keys_of cleanedLogs).

Definition file_data (cleanedLogs : value) (jf : string * string) : value :=
  prop (prop cleanedLogs (fst jf)) (snd jf).

Definition has_entries (cleanedLogs : value) (jf : string * string) : bool :=
  (0 <? total_lines (file_data cleanedLogs jf))%nat.

Definition file_name (jf : string * string) : string := fst jf ++ "/" ++ snd jf.

Definition type_of (log : value) : string :=
  match detect_type log with
  | Ok t => t
  | Throw _ => "info"
  end.

Definition entry_of (src : string * value) : LogEntry :=
  {| message := snd src;
     type := Some (type_of (snd src));
     category := if fst src =? "SingleLogs" then None else Some (fst src) |}.

(** What one (job, file) pair adds to the output: its log file when it has
    a line, nothing otherwise. *)
Definition file_block (jf : string * string) (fileData : value) : list LogFile :=
  if (0 <? total_lines fileData)%nat
  then [{| name := file_name jf; logs := map entry_of (source_lines fileData) |}]
  else [].

(** What one job adds: the blocks of its files, in key order. *)
Definition job_block (cleanedLogs : value) (j : string) : list LogFile :=
  flat_map (fun f => file_block (j, f) (file_data cleanedLogs (j, f)))
           (keys_of (prop cleanedLogs j)).

(** The log files a payload stands for. *)
Definition expected_files (cleanedLogs : value) : list LogFile :=
  map (fun jf => {| name := file_name jf;
                    logs := map entry_of (source_lines (file_data cleanedLogs jf)) |})
      (filter (has_entries cleanedLogs) (job_file_pairs cleanedLogs)).

(** [sub] occurs in [s]. *)
Definition substring_of (sub s : string) : Prop :=
  exists a b, s = a ++ sub ++ b.

(** Payloads with the declared shape, as far as the normaliser depends on
    it: no job and no file is [null], and a category that is an array holds
    strings. *)
Definition is_Str (v : value) : bool :=
  match v with
  | Str _ => true
  | _ => false
  end.

Definition category_ok (v : value) : bool :=
  match v with
  | Arr l => forallb is_Str l
  | _ => true
  end.

Definition all_props (p : value -> bool) (v : value) : bool :=
  match own_props v with
  | Ok ps => forallb (fun k => p (lookup k ps)) (map fst ps)
  | Throw _ => false
  end.

Definition file_ok : value -> bool := all_props category_ok.
Definition job_ok : value -> bool := all_props file_ok.
Definition logs_ok : value -> bool := all_props job_ok.

Definition payload_ok (data : value) : bool :=
  negb (nullish data) &&
  (negb (truthy (prop data "cleanedLogs")) || logs_ok (prop data "cleanedLogs")).

(** A [storeLogs] field that [fetchWorkflows] can map: absent, or an array
    without [null]. *)
Definition storeLogs_ok (data : value) : bool :=
  match prop data "storeLogs" with
  | Undefined | Null => true
  | Arr l => forallb (fun log => negb (nullish log)) l
  | _ => false
  end.

(** A counter of the stats record against its payload field: 0 when the
    field is absent, the field when it is a number. *)
Definition defaulted (field stat : value) : Prop :=
  (field = Undefined -> stat = Num 0) /\ (forall n, field = Num n -> stat = Num n).

(** The URL each wrapper requests. *)
Definition repos_url (accessToken : string) : string :=
  API_BASE_URL ++ "/user/repos/" ++ accessToken.

Definition workflows_url (accessToken ownerName repoName : string) : string :=
  API_BASE_URL ++ "/user/repos/" ++ accessToken ++ "/" ++ ownerName ++ "/" ++ repoName.

Definition logs_url (accessToken ownerName repoName workflowId : string) : string :=
  API_BASE_URL ++ "/user/repos/" ++ accessToken ++ "/" ++ ownerName ++ "/"
    ++ repoName ++ "/" ++ workflowId ++ "/getLogs".

(** Following the specification's words: the lowercase form of a line
    (ASCII letters). *)
Definition lower_char (c : ascii) : ascii :=
  let n := nat_of_ascii c in
  if ((65 <=? n) && (n <=? 90))%nat then ascii_of_nat (n + 32) else c.

Fixpoint spec_lowercase (s : string) : string :=
  match s with
  | EmptyString => EmptyString
  | String c s' => String (lower_char c) (spec_lowercase s')
  end.

(** A server that answers every request with the same body, and sample
    payloads of the logs endpoint. *)
Definition answers (status_ok : bool) (body : value) : string -> result Response :=
  fun _ => Ok {| ok := status_ok; json := Ok body |}.

Definition sample_logs : value :=
  Obj [("cleanedLogs",
        Obj [("build",
              Obj [("1_setup.txt",
                    Obj [("SingleLogs", Arr [Str "Starting job"; Str "Waiting for runner"]);
                         ("Run tests", Arr [Str "Task completed"; Str "Step failed"]);
                         ("exitCode", Num 1)]);
                   ("empty.txt", Obj [("SingleLogs", Arr [])])]);
             ("deploy", Obj [("unit/test", Obj [("Upload", Arr [Str "upload success"])])])])].

Definition null_job : value := Obj [("cleanedLogs", Obj [("build", Null)])].

Definition numeric_line : value :=
  Obj [("cleanedLogs", Obj [("build", Obj [("1.txt", Obj [("SingleLogs", Arr [Num 1])])])])].

End LogModel.

(** ** The state of the [LogViewer] component

    [loadLogs], the effect that calls it, what is rendered, and the grouping
    by category of the accordion version of the component. *)

Module Viewer.
Import JS Api LogViewer.

(** The three [useState] cells. *)
Record State := {
  logFiles : list LogFile;
  activeTab : string;
  loading : bool
}.

(** [useState([])], [useState('')], [useState(true)]. *)
Definition initial : State :=
  {| logFiles := []; activeTab := ""; loading := true |}.

(** What [useAuth()] hands to the component; [None] is [null] or
    [undefined].  The hook itself is outside these files: only the two values
    are used, for their truthiness and as path segments. *)
Record Auth := {
  accessToken : option string;
  ownerName : option string
}.

Inductive toast : Type :=
| toast_error (msg : string)
| toast_success (msg : string).

(** A finished [loadLogs]: the state it leaves, what went to
    [console.error] and the toasts shown. *)
Record Loaded := {
  state : State;
  console : list (string * error);
  toasts : list toast
}.

Definition unchanged (st : State) : Loaded :=
  {| state := st; console := []; toasts := [] |}.

(** [!s] on a string. *)
Definition empty (s : string) : bool := s =? "".

Definition loadLogs (fetch : string -> result Response) (auth : Auth)
    (repoName workflowId : string) (st : State) : Loaded :=
  match accessToken auth, ownerName auth with
  | Some t, Some o =>
      if empty t || empty o || empty repoName || empty workflowId
      then unchanged st
      else
        let out := fetchWorkflowLogs fetch t o repoName workflowId in
        match settled out with
        | Ok logs =>
            {| state := {| logFiles := logs;
                           activeTab := match logs with
                                        | [] => activeTab st
                                        | first :: _ => name first
                                        end;
                           loading := false |};
               console := console_error out;
               toasts := [] |}
        | Throw e =>
            {| state := {| logFiles := logFiles st;
                           activeTab := activeTab st;
                           loading := false |};
               console := (console_error out ++ [("Failed to fetch logs:", e)])%list;
               toasts := [toast_error "Failed to load workflow logs"] |}
        end
  | _, _ => unchanged st
  end.

(** The [useEffect] on [workflowId] and [repoName]. *)
Definition effect (fetch : string -> result Response) (auth : Auth)
    (repoName workflowId : string) (st : State) : Loaded :=
  if empty workflowId then unchanged st
  else loadLogs fetch auth repoName workflowId st.

(** Which of the three screens is rendered. *)
Inductive View : Type :=
| Skeleton
| NoLogsAvailable
| Files (names : list string) (active : string).

Definition render (st : State) : View :=
  if loading st then Skeleton
  else if (List.length (logFiles st) =? 0)%nat then NoLogsAvailable
  else Files (map name (logFiles st)) (activeTab st).

(** The properties every object literal inherits from [Object.prototype]. *)
Definition Object_prototype : list string :=
  ["constructor"; "hasOwnProperty"; "isPrototypeOf"; "propertyIsEnumerable";
   "toLocaleString"; "toString"; "valueOf"; "__proto__";
   "__defineGetter__"; "__defineSetter__"; "__lookupGetter__"; "__lookupSetter__"].

Definition inherited (k : string) : bool := existsb (String.eqb k) Object_prototype.

(** [log.category || 'General']. *)
Definition group_key (log : LogEntry) : string :=
  match category log with
  | Some c => if c =? "" then "General" else c
  | None => "General"
  end.

Definition has_own {V} (k : string) (groups : list (string * V)) : bool :=
  existsb (fun g => fst g =? k) groups.

(** [groups[k].push(log)] on an own key. *)
Fixpoint push_to (k : string) (log : LogEntry) (groups : list (string * list LogEntry))
  : list (string * list LogEntry) :=
  match groups with
  | [] => []
  | (k', es) :: rest =>
      if k' =? k then (k', (es ++ [log])%list) :: rest
      else (k', es) :: push_to k log rest
  end.

(** One turn of the grouping loop.  A key the object does not own is read
    through the prototype: an inherited name gives a truthy value that is no
    array, the group is not created and [push] is not a function. *)
Definition group_step (log : LogEntry) (groups : list (string * list LogEntry))
  : result (list (string * list LogEntry)) :=
  let category := group_key log in
  if has_own category groups then Ok (push_to category log groups)
  else if inherited category then Throw TypeError
  else Ok (push_to category log (groups ++ [(category, [])])%list).

(** [logsByCategory], as the list of its own properties in creation
    order. *)
Definition logsByCategory (currentLogFile : option LogFile)
  : result (list (string * list LogEntry)) :=
  match currentLogFile with
  | None => Ok []
  | Some file => forEach (logs file) group_step []
  end.

(** [logsByCategory[k]] for a key listed by [Object.keys]. *)
Fixpoint group {V} (k : string) (groups : list (string * list V)) : list V :=
  match groups with
  | [] => []
  | (k', es) :: rest => if k' =? k then es else group k rest
  end.

End Viewer.

(** ** Vocabulary for the further properties *)

Module Coverage.
Import JS Api LogViewer LogModel Viewer.

(** A line [includes] can be called on. *)
Definition line_ok (v : value) : bool :=
  match v with
  | Str _ | Arr _ => true
  | _ => false
  end.

Definition category_accepted (v : value) : bool :=
  match v with
  | Arr l => forallb line_ok l
  | _ => true
  end.

Definition file_accepted : value -> bool := all_props category_accepted.
Definition job_accepted : value -> bool := all_props file_accepted.
Definition logs_accepted : value -> bool := all_props job_accepted.

(** The payloads the normaliser returns on. *)
Definition accepted (data : value) : bool :=
  negb (nullish data) &&
  (negb (truthy (prop data "cleanedLogs")) || logs_accepted (prop data "cleanedLogs")).

(** The prefix of every URL the wrappers request. *)
Definition api_prefix : string := API_BASE_URL ++ "/user/repos/".

(** The workflows of a [storeLogs] array. *)
Definition workflow_of (log : value) : Workflow :=
  {| id := prop log "id"; display_title := prop log "display_title" |}.

(** Cutting a text at a character. *)
Fixpoint split_on (c : ascii) (s : string) : list string :=
  match s with
  | EmptyString => [EmptyString]
  | String a s' =>
      if (a =? c)%char then EmptyString :: split_on c s'
      else match split_on c s' with
           | [] => [String a EmptyString]
           | l :: ls => String a l :: ls
           end
  end.

Definition newline_char : ascii := "010"%char.

(** What the grouping loop keeps true of the groups built from the entries
    seen so far. *)
Definition grouped (seen : list LogEntry) (groups : list (string * list LogEntry)) : Prop :=
  NoDup (map fst groups) /\
  (forall k, group k groups = filter (fun e => group_key e =? k) seen) /\
  (forall k, In k (map fst groups) -> inherited k = false /\ group k groups <> []).

(** Samples: a network that is down, a signed-in user, a workflows payload,
    and a log file with three categories. *)
Definition offline : string -> result Response := fun _ => Throw TypeError.

Definition signed_in : Auth :=
  {| accessToken := Some "token"; ownerName := Some "owner" |}.

Definition sample_workflows : value :=
  Obj [("storeLogs", Arr [Obj [("id", Num 7); ("display_title", Str "CI")];
                          Obj [("id", Num 8)]]);
       ("success", Num 1)].

Definition sample_file : LogFile :=
  {| name := "build/1.txt";
     logs := map entry_of [("SingleLogs", Str "Starting job");
                           ("Run tests", Str "Task completed");
                           ("General", Str "Step failed")] |}.

(** A payload in which the job [a] has a file [b/c] and the job [a/b] a file
    [c], each with one line. *)
Definition colliding (a b c line1 line2 : string) : value :=
  Obj [("cleanedLogs",
        Obj [(a, Obj [(b ++ "/" ++ c, Obj [("SingleLogs", Arr [Str line1])])]);
             (a ++ "/" ++ b, Obj [(c, Obj [("SingleLogs", Arr [Str line2])])])])].

End Coverage.

Import JS Api LogViewer LogModel.

(** ** Strings: [includes] and [replace] *)

Section Strings.

Lemma starts_with_app (p s : string) : starts_with p (p ++ s) = true.
Proof.
  induction p as [|c p IH]; simpl.
  - reflexivity.
  - rewrite Ascii.eqb_refl. exact IH.
Qed.

Lemma starts_with_drop (p s : string) :
  starts_with p s = true -> s = p ++ drop (String.length p) s.
Proof.
  revert s. induction p as [|c p IH]; intros s H; simpl in *.
  - reflexivity.
  - destruct s as [|b s]; [discriminate|].
    apply andb_true_iff in H. destruct H as [Hc Hp].
    apply Ascii.eqb_eq in Hc. subst b.
    f_equal. apply IH. exact Hp.
Qed.

Lemma string_includes_head (s sub : string) :
  starts_with sub s = true -> string_includes s sub = true.
Proof.
  intro H. destruct s; simpl; rewrite H; reflexivity.
Qed.

Lemma string_includes_iff (s sub : string) :
  string_includes s sub = true <-> substring_of sub s.
Proof.
  split.
  - induction s as [|c s IH]; simpl; intro H.
    + rewrite orb_false_r in H. exists "", (drop (String.length sub) "").
      simpl. now apply starts_with_drop.
    + apply orb_true_iff in H. destruct H as [H|H].
      * exists "", (drop (String.length sub) (String c s)).
        now apply starts_with_drop.
      * destruct (IH H) as (a & b & ->). now exists (String c a), b.
  - intros (a & b & ->). induction a as [|c a IH].
    + apply string_includes_head. exact (starts_with_app sub b).
    + change (string_includes (String c a ++ sub ++ b) sub)
        with (starts_with sub (String c (a ++ sub ++ b))
              || string_includes (a ++ sub ++ b) sub).
      rewrite IH. apply orb_true_r.
Qed.

Lemma string_includes_false (s sub : string) :
  string_includes s sub = false <-> ~ substring_of sub s.
Proof.
  rewrite <- string_includes_iff. destruct (string_includes s sub); split; intro H.
  - discriminate.
  - now contradiction H.
  - discriminate.
  - reflexivity.
Qed.

Lemma replace_absent (s : string) (c : ascii) (rep : string) :
  string_includes s (String c "") = false -> replace s (String c "") rep = s.
Proof.
  induction s as [|b s IH]; simpl; intro H.
  - reflexivity.
  - apply orb_false_iff in H. destruct H as [H1 H2].
    rewrite H1. f_equal. now apply IH.
Qed.

Lemma replace_first (a b : string) (c : ascii) (rep : string) :
  string_includes a (String c "") = false ->
  replace (a ++ String c b) (String c "") rep = a ++ rep ++ b.
Proof.
  induction a as [|x a IH]; simpl; intro H.
  - rewrite Ascii.eqb_refl. reflexivity.
  - apply orb_false_iff in H. destruct H as [H1 H2].
    rewrite H1. f_equal. now apply IH.
Qed.

End Strings.

(** ** Loops that only append *)

Section Loops.

Context {A B : Type}.

Lemma bind_Ok_inv {X Y} (c : result X) (k : X -> result Y) (y : Y) :
  bind c k = Ok y -> exists x, c = Ok x /\ k x = Ok y.
Proof.
  destruct c as [x|e]; simpl; intro H.
  - now exists x.
  - discriminate.
Qed.

(** If every step that returns has appended [g x], a loop that returns has
    appended them all, in order. *)
Lemma forEach_Ok_appends (f : A -> list B -> result (list B)) (g : A -> list B)
    (xs : list A) :
  (forall x s s', f x s = Ok s' -> s' = (s ++ g x)%list) ->
  forall s s', forEach xs f s = Ok s' -> s' = (s ++ flat_map g xs)%list.
Proof.
  intros Hf. induction xs as [|x xs IH]; simpl; intros s s' H.
  - injection H as <-. now rewrite app_nil_r.
  - apply bind_Ok_inv in H. destruct H as (s1 & H1 & H2).
    apply Hf in H1. subst s1.
    rewrite (IH _ _ H2). now rewrite app_assoc.
Qed.

(** If every step on an element of the list returns, so does the loop. *)
Lemma forEach_appends (f : A -> list B -> result (list B)) (g : A -> list B)
    (xs : list A) :
  (forall x, In x xs -> forall s, f x s = Ok (s ++ g x)%list) ->
  forall s, forEach xs f s = Ok (s ++ flat_map g xs)%list.
Proof.
  induction xs as [|x xs IH]; simpl; intros Hf s.
  - now rewrite app_nil_r.
  - rewrite (Hf x (or_introl eq_refl)). simpl.
    rewrite IH by (intros y Hy; apply Hf; now right).
    now rewrite app_assoc.
Qed.

Lemma flat_map_single (f : A -> B) (xs : list A) :
  flat_map (fun x => [f x]) xs = map f xs.
Proof.
  induction xs as [|x xs IH]; simpl; [reflexivity | now rewrite IH].
Qed.

Lemma map_flat_map {C} (f : B -> C) (g : A -> list B) (xs : list A) :
  map f (flat_map g xs) = flat_map (fun x => map f (g x)) xs.
Proof.
  induction xs as [|x xs IH]; simpl; [reflexivity|].
  now rewrite map_app, IH.
Qed.

(** Selecting inside a nested traversal is selecting from the list of
    pairs. *)
Lemma flat_map_pairs {C} (ks : A -> list B) (h : A * B -> bool) (mk : A * B -> C)
    (js : list A) :
  flat_map (fun j => flat_map (fun f => if h (j, f) then [mk (j, f)] else []) (ks j)) js
  = map mk (filter h (flat_map (fun j => map (pair j) (ks j)) js)).
Proof.
  induction js as [|j js IH]; simpl; [reflexivity|].
  rewrite filter_app, map_app, IH. f_equal.
  induction (ks j) as [|f fs IHf]; simpl; [reflexivity|].
  destruct (h (j, f)); simpl; now rewrite IHf.
Qed.

End Loops.

(** ** The normaliser, level by level *)

Section Normalizer.

Lemma own_props_reads (v : value) (ps : list (string * value)) :
  own_props v = Ok ps ->
  Object_keys v = Ok (map fst ps) /\ keys_of v = map fst ps /\
  forall k, get v k = Ok (lookup k ps) /\ prop v k = lookup k ps.
Proof.
  intro H. unfold keys_of, prop, Object_keys, get. rewrite H. simpl. auto.
Qed.

Lemma own_props_nullish (v : value) :
  nullish v = false -> exists ps, own_props v = Ok ps.
Proof.
  destruct v; simpl; intro H; try discriminate; eauto.
Qed.

Lemma get_Ok_prop (v : value) (k : string) (x : value) :
  get v k = Ok x -> prop v k = x.
Proof.
  unfold prop. now intros ->.
Qed.

Lemma Object_keys_Ok (v : value) (ks : list string) :
  Object_keys v = Ok ks -> keys_of v = ks.
Proof.
  unfold keys_of. now intros ->.
Qed.

Lemma falsy_no_keys (v : value) : truthy v = false -> keys_of v = [].
Proof.
  destruct v as [| | b | n | s | l | ps]; simpl; intro H; try reflexivity; try discriminate.
  apply negb_false_iff, String.eqb_eq in H. now subst s.
Qed.

Lemma all_props_inv (p : value -> bool) (v : value) :
  all_props p v = true ->
  exists ps, own_props v = Ok ps /\
             forall k, In k (map fst ps) -> p (lookup k ps) = true.
Proof.
  unfold all_props. destruct (own_props v) as [ps|e]; [|discriminate].
  intro H. exists ps. split; [reflexivity|].
  now apply forallb_forall.
Qed.

(** A string always has a type. *)
Lemma detect_type_Str (s : string) : detect_type (Str s) = Ok (type_of (Str s)).
Proof.
  unfold type_of, detect_type, includes, bind.
  repeat match goal with
         | |- context [if ?b then _ else _] => destruct b
         end; reflexivity.
Qed.

Lemma type_of_cases (log : value) :
  type_of log = "info" \/ type_of log = "success" \/
  type_of log = "warning" \/ type_of log = "error".
Proof.
  unfold type_of, detect_type, bind.
  destruct (includes log "success") as [[]|]; simpl; auto;
  destruct (includes log "completed") as [[]|]; simpl; auto;
  destruct (includes log "warning") as [[]|]; simpl; auto;
  destruct (includes log "waiting") as [[]|]; simpl; auto;
  destruct (includes log "error") as [[]|]; simpl; auto;
  destruct (includes log "failed") as [[]|]; simpl; auto.
Qed.

Lemma push_entry_Ok (c : string) (log : value) (es es' : list LogEntry) :
  push_entry c log es = Ok es' -> es' = (es ++ [entry_of (c, log)])%list.
Proof.
  unfold push_entry. intro H. apply bind_Ok_inv in H.
  destruct H as (t & Ht & H). injection H as <-.
  unfold entry_of, type_of. simpl. now rewrite Ht.
Qed.

Lemma push_entry_Str (c : string) (s : string) (es : list LogEntry) :
  push_entry c (Str s) es = Ok (es ++ [entry_of (c, Str s)])%list.
Proof.
  unfold push_entry. rewrite detect_type_Str. reflexivity.
Qed.

Lemma process_category_Ok (fd : value) (c : string) (es es' : list LogEntry) :
  process_category fd c es = Ok es' ->
  es' = (es ++ map entry_of (map (pair c) (lines (prop fd c))))%list.
Proof.
  unfold process_category. intro H. apply bind_Ok_inv in H.
  destruct H as (v & Hv & H). rewrite (get_Ok_prop _ _ _ Hv).
  destruct v; simpl; try (injection H as <-; now rewrite app_nil_r).
  rewrite map_map, <- flat_map_single.
  revert H. apply forEach_Ok_appends. intros log s s'. apply push_entry_Ok.
Qed.

Lemma process_category_total (fd : value) (ps : list (string * value))
    (c : string) (es : list LogEntry) :
  own_props fd = Ok ps -> category_ok (lookup c ps) = true ->
  process_category fd c es
  = Ok (es ++ map entry_of (map (pair c) (lines (prop fd c))))%list.
Proof.
  intros Hps Hc. destruct (own_props_reads _ _ Hps) as (_ & _ & Hget).
  destruct (Hget c) as [Hg Hp]. unfold process_category. rewrite Hg, Hp. simpl.
  destruct (lookup c ps) as [| | b | n | s | l | qs]; simpl;
    try now rewrite app_nil_r.
  rewrite map_map, <- flat_map_single.
  apply forEach_appends. intros log Hin s.
  simpl in Hc. rewrite forallb_forall in Hc. specialize (Hc log Hin).
  destruct log; try discriminate. apply push_entry_Str.
Qed.

Lemma file_entries_length (fd : value) :
  List.length (map entry_of (source_lines fd)) = total_lines fd.
Proof.
  unfold source_lines, total_lines.
  rewrite length_map, length_flat_map. f_equal.
  apply map_ext. intro c. apply length_map.
Qed.

Lemma process_file_Ok (j : string) (jl : value) (f : string) (lfs lfs' : list LogFile) :
  process_file j jl f lfs = Ok lfs' ->
  lfs' = (lfs ++ file_block (j, f) (prop jl f))%list.
Proof.
  unfold process_file. intro H.
  apply bind_Ok_inv in H. destruct H as (fd & Hfd & H).
  apply bind_Ok_inv in H. destruct H as (cats & Hcats & H).
  apply bind_Ok_inv in H. destruct H as (es & Hes & H).
  rewrite (get_Ok_prop _ _ _ Hfd).
  apply (forEach_Ok_appends _
           (fun c => map entry_of (map (pair c) (lines (prop fd c))))) in Hes;
    [|intros c s s'; apply process_category_Ok].
  simpl in Hes. rewrite <- (Object_keys_Ok _ _ Hcats) in Hes.
  assert (Hsrc : es = map entry_of (source_lines fd)).
  { rewrite Hes. unfold source_lines. now rewrite map_flat_map. }
  unfold file_block. rewrite <- file_entries_length, <- Hsrc.
  destruct (0 <? List.length es)%nat; injection H as <-;
    [reflexivity | now rewrite app_nil_r].
Qed.

Lemma process_file_total (j : string) (jl : value) (ps : list (string * value))
    (f : string) (lfs : list LogFile) :
  own_props jl = Ok ps -> file_ok (lookup f ps) = true ->
  process_file j jl f lfs = Ok (lfs ++ file_block (j, f) (prop jl f))%list.
Proof.
  intros Hps Hf. destruct (own_props_reads _ _ Hps) as (_ & _ & Hget).
  destruct (Hget f) as [Hg Hp]. unfold process_file. rewrite Hg, Hp. simpl.
  set (fd := lookup f ps) in *.
  apply all_props_inv in Hf. destruct Hf as (qs & Hqs & Hcat).
  destruct (own_props_reads _ _ Hqs) as (Hkeys & Hkeys' & _).
  rewrite Hkeys. simpl.
  rewrite (forEach_appends _
             (fun c => map entry_of (map (pair c) (lines (prop fd c)))))
    by (intros c Hc s; apply (process_category_total _ qs); auto).
  simpl.
  assert (Hsrc : flat_map (fun c => map entry_of (map (pair c) (lines (prop fd c))))
                          (map fst qs)
                 = map entry_of (source_lines fd)).
  { unfold source_lines. now rewrite map_flat_map, Hkeys'. }
  rewrite Hsrc. unfold file_block. rewrite <- file_entries_length.
  destruct (0 <? _)%nat; [reflexivity | now rewrite app_nil_r].
Qed.

End Normalizer.

Section NormalizerWhole.

Lemma blocks_expected (c : value) :
  flat_map (job_block c) (keys_of c) = expected_files c.
Proof.
  unfold job_block, expected_files, job_file_pairs, file_block.
  exact (flat_map_pairs (fun j => keys_of (prop c j)) (has_entries c)
           (fun jf => {| name := file_name jf;
                         logs := map entry_of (source_lines (file_data c jf)) |})
           (keys_of c)).
Qed.

Lemma process_job_Ok (c : value) (j : string) (lfs lfs' : list LogFile) :
  process_job c j lfs = Ok lfs' -> lfs' = (lfs ++ job_block c j)%list.
Proof.
  unfold process_job. intro H.
  apply bind_Ok_inv in H. destruct H as (jl & Hjl & H).
  apply bind_Ok_inv in H. destruct H as (files & Hfiles & H).
  unfold job_block, file_data. simpl.
  rewrite (get_Ok_prop _ _ _ Hjl), (Object_keys_Ok _ _ Hfiles).
  revert H. apply forEach_Ok_appends. intros f s s'. apply process_file_Ok.
Qed.

Lemma process_job_total (c : value) (ps : list (string * value)) (j : string)
    (lfs : list LogFile) :
  own_props c = Ok ps -> job_ok (lookup j ps) = true ->
  process_job c j lfs = Ok (lfs ++ job_block c j)%list.
Proof.
  intros Hps Hj. destruct (own_props_reads _ _ Hps) as (_ & _ & Hget).
  destruct (Hget j) as [Hg Hp]. unfold process_job, job_block, file_data.
  simpl. rewrite Hg, Hp. simpl.
  apply all_props_inv in Hj. destruct Hj as (qs & Hqs & Hfile).
  destruct (own_props_reads _ _ Hqs) as (Hkeys & Hkeys' & _).
  rewrite Hkeys, Hkeys'. simpl.
  apply forEach_appends. intros f Hf s.
  apply (process_file_total _ _ qs); auto.
Qed.

(** Whenever the normaliser returns, it returns the log files the payload
    stands for. *)
Lemma normalize_Ok (data : value) (lfs : list LogFile) :
  normalize data = Ok lfs -> lfs = expected_files (prop data "cleanedLogs").
Proof.
  unfold normalize. intro H.
  apply bind_Ok_inv in H. destruct H as (c & Hc & H).
  rewrite (get_Ok_prop _ _ _ Hc). rewrite <- blocks_expected.
  destruct (truthy c) eqn:Ht.
  - apply bind_Ok_inv in H. destruct H as (jobs & Hjobs & H).
    rewrite (Object_keys_Ok _ _ Hjobs).
    apply (forEach_Ok_appends _ (job_block c)) in H;
      [exact H | intros j s s'; apply process_job_Ok].
  - injection H as <-. now rewrite (falsy_no_keys _ Ht).
Qed.

(** On a payload of the declared shape the normaliser returns. *)
Lemma normalize_total (data : value) :
  payload_ok data = true ->
  normalize data = Ok (expected_files (prop data "cleanedLogs")).
Proof.
  unfold payload_ok. intro H. apply andb_true_iff in H. destruct H as [Hn Hc].
  apply negb_true_iff, own_props_nullish in Hn. destruct Hn as (ps & Hps).
  destruct (own_props_reads _ _ Hps) as (_ & _ & Hget).
  destruct (Hget "cleanedLogs") as [Hg Hp].
  unfold normalize. rewrite Hg. rewrite Hp in *. simpl.
  set (c := lookup "cleanedLogs" ps) in *.
  rewrite <- blocks_expected.
  destruct (truthy c) eqn:Ht; simpl in Hc.
  - apply all_props_inv in Hc. destruct Hc as (qs & Hqs & Hjob).
    destruct (own_props_reads _ _ Hqs) as (Hkeys & Hkeys' & _).
    rewrite Hkeys, Hkeys'. simpl.
    apply (forEach_appends _ (job_block c)). intros j Hj s.
    apply (process_job_total _ qs); auto.
  - now rewrite (falsy_no_keys _ Ht).
Qed.

End NormalizerWhole.

(** ** The wrappers around the normaliser *)

Section WrapperFacts.

Variable fetch : string -> result Response.

Lemma try_catch_settled {A} (label : string) (body : result A) :
  settled (try_catch label body) = body.
Proof.
  now destruct body.
Qed.

(** A settled log fetch went through an [ok] response with a JSON body that
    the normaliser accepted. *)
Lemma fetchWorkflowLogs_Ok_inv (t o r w : string) (lfs : list LogFile) :
  settled (fetchWorkflowLogs fetch t o r w) = Ok lfs ->
  exists response data,
    fetch (logs_url t o r w) = Ok response /\ ok response = true /\
    json response = Ok data /\ normalize data = Ok lfs.
Proof.
  unfold fetchWorkflowLogs. rewrite try_catch_settled. intro H.
  apply bind_Ok_inv in H. destruct H as (response & Hr & H).
  destruct (ok response) eqn:Hok; simpl in H; [|discriminate].
  apply bind_Ok_inv in H. destruct H as (data & Hd & H).
  exists response, data. auto.
Qed.

Lemma fetchWorkflowLogs_body (t o r w : string) (response : Response) (data : value) :
  fetch (logs_url t o r w) = Ok response -> ok response = true ->
  json response = Ok data ->
  settled (fetchWorkflowLogs fetch t o r w) = normalize data.
Proof.
  intros Hr Hok Hd. unfold fetchWorkflowLogs. rewrite try_catch_settled.
  fold (logs_url t o r w). rewrite Hr. simpl. rewrite Hok. simpl.
  rewrite Hd. reflexivity.
Qed.

End WrapperFacts.

(** ** Classification of a line *)

Section Classification.

(** C1 as the specification words it: it lower-cases the line first, so
    "Waiting for runner" would contain "waiting" and be a warning.  The code
    searches the line as it is: the capital W does not match and the line
    stays "info". *)
Lemma waiting_for_runner_is_info :
  string_includes (spec_lowercase "Waiting for runner") "success" = false /\
  string_includes (spec_lowercase "Waiting for runner") "completed" = false /\
  string_includes (spec_lowercase "Waiting for runner") "waiting" = true /\
  detect_type (Str "Waiting for runner") = Ok "info" /\
  detect_type (Str "Waiting for runner") <> Ok "warning" /\
  settled (fetchWorkflowLogs
             (answers true
                (Obj [("cleanedLogs",
                       Obj [("build",
                             Obj [("1.txt",
                                   Obj [("SingleLogs",
                                         Arr [Str "Waiting for runner"])])])])]))
             "token" "owner" "repo" "42")
  = Ok [{| name := "build/1.txt";
           logs := [{| message := Str "Waiting for runner";
                       type := Some "info";
                       category := None |}] |}].
Proof.
  repeat split; try reflexivity. discriminate.
Qed.

(** C1, amended: the type of a line is decided on the line as it is
    (case-sensitive): "success" when it contains "success" or "completed";
    otherwise "warning" when it contains "warning" or "waiting"; otherwise
    "error" when it contains "error" or "failed"; otherwise "info".  That type
    is the one on the entry pushed for the line.  "Task completed" is a
    success, "Step failed" an error, "Starting job" and "Waiting for runner"
    are info. *)
Theorem line_classification :
  (forall (category line : string) (entries : list LogEntry),
     exists t,
       detect_type (Str line) = Ok t /\
       push_entry category (Str line) entries
       = Ok (entries ++ [{| message := Str line;
                            type := Some t;
                            category := if category =? "SingleLogs" then None
                                        else Some category |}])%list /\
       ((substring_of "success" line \/ substring_of "completed" line) ->
        t = "success") /\
       (~ (substring_of "success" line \/ substring_of "completed" line) ->
        (substring_of "warning" line \/ substring_of "waiting" line) ->
        t = "warning") /\
       (~ (substring_of "success" line \/ substring_of "completed" line) ->
        ~ (substring_of "warning" line \/ substring_of "waiting" line) ->
        (substring_of "error" line \/ substring_of "failed" line) ->
        t = "error") /\
       (~ (substring_of "success" line \/ substring_of "completed" line) ->
        ~ (substring_of "warning" line \/ substring_of "waiting" line) ->
        ~ (substring_of "error" line \/ substring_of "failed" line) ->
        t = "info")) /\
  detect_type (Str "Task completed") = Ok "success" /\
  detect_type (Str "Waiting for runner") = Ok "info" /\
  detect_type (Str "Step failed") = Ok "error" /\
  detect_type (Str "Starting job") = Ok "info".
Proof.
  split; [|repeat split; reflexivity].
  intros category line entries. exists (type_of (Str line)).
  split; [apply detect_type_Str|].
  split; [apply push_entry_Str|].
  unfold type_of, detect_type, includes, bind.
  destruct (string_includes line "success") eqn:E1;
  destruct (string_includes line "completed") eqn:E2;
  destruct (string_includes line "warning") eqn:E3;
  destruct (string_includes line "waiting") eqn:E4;
  destruct (string_includes line "error") eqn:E5;
  destruct (string_includes line "failed") eqn:E6;
  repeat match goal with
         | H : string_includes _ _ = true |- _ => apply string_includes_iff in H
         | H : string_includes _ _ = false |- _ => apply string_includes_false in H
         end;
  simpl; tauto.
Qed.

Lemma line_classification_witness :
  exists t,
    detect_type (Str "Deploy completed with warning") = Ok t /\ t = "success".
Proof.
  destruct (proj1 line_classification "SingleLogs" "Deploy completed with warning" [])
    as (t & Ht & _ & Hs & _).
  exists t. split; [exact Ht|].
  apply Hs. right. exists "Deploy ", " with warning". reflexivity.
Defined.

End Classification.

(** ** What the log fetch returns *)

Section LogFiles.

Variable fetch : string -> result Response.

Lemma Forall2_map_In {X Y} (R : X -> Y -> Prop) (f : X -> Y) (xs : list X) :
  (forall x, In x xs -> R x (f x)) -> Forall2 R xs (map f xs).
Proof.
  induction xs as [|x xs IH]; simpl; intro H; constructor.
  - apply H. now left.
  - apply IH. intros y Hy. apply H. now right.
Qed.

Lemma source_lines_messages (fd : value) :
  map message (map entry_of (source_lines fd))
  = flat_map (fun c => lines (prop fd c)) (keys_of fd).
Proof.
  rewrite map_map. unfold source_lines. rewrite map_flat_map.
  apply flat_map_ext. intro c. rewrite map_map. simpl. apply map_id.
Qed.

Lemma entry_of_category (src : string * value) :
  category (entry_of src) <> Some "SingleLogs".
Proof.
  unfold entry_of. simpl. destruct (fst src =? "SingleLogs") eqn:E.
  - discriminate.
  - intro H. injection H as H. rewrite H in E. discriminate.
Qed.

Lemma expected_files_In (c : value) (lf : LogFile) :
  In lf (expected_files c) ->
  exists jf, In jf (job_file_pairs c) /\ has_entries c jf = true /\
             name lf = file_name jf /\
             logs lf = map entry_of (source_lines (file_data c jf)).
Proof.
  unfold expected_files. intro H. apply in_map_iff in H.
  destruct H as (jf & <- & Hjf). apply filter_In in Hjf.
  exists jf. simpl. tauto.
Qed.

(** C2: on a payload whose jobs and files are mappings and whose array-valued
    categories hold strings, the fetch returns one log file per (job, file)
    pair that has a line, and none for a pair that has no line; the file's
    messages are its categories' arrays one after the other, each in array
    order, so its number of entries is the sum of the arrays' lengths. *)
Theorem entry_counts (t o r w : string) (response : Response) (data : value) :
  fetch (logs_url t o r w) = Ok response ->
  ok response = true ->
  json response = Ok data ->
  payload_ok data = true ->
  exists lfs,
    settled (fetchWorkflowLogs fetch t o r w) = Ok lfs /\
    Forall2
      (fun jf lf =>
         let fd := file_data (prop data "cleanedLogs") jf in
         name lf = file_name jf /\
         map message (logs lf) = flat_map (fun c => lines (prop fd c)) (keys_of fd) /\
         List.length (logs lf)
         = list_sum (map (fun c => List.length (lines (prop fd c))) (keys_of fd)) /\
         (0 < List.length (logs lf))%nat)
      (filter (fun jf => (0 <? total_lines (file_data (prop data "cleanedLogs") jf))%nat)
              (job_file_pairs (prop data "cleanedLogs")))
      lfs.
Proof.
  intros Hr Hok Hd Hp.
  exists (expected_files (prop data "cleanedLogs")). split.
  - rewrite (fetchWorkflowLogs_body fetch t o r w response data Hr Hok Hd).
    now apply normalize_total.
  - unfold expected_files. apply Forall2_map_In. intros jf Hjf.
    apply filter_In in Hjf. destruct Hjf as [_ Hjf].
    unfold has_entries in Hjf. apply Nat.ltb_lt in Hjf. simpl.
    rewrite file_entries_length, source_lines_messages. auto.
Qed.

(** C4: every entry of a returned log file carries the key of the category
    its line came from, except that the key "SingleLogs" leaves the field
    absent; so no entry has "SingleLogs" as its category. *)
Theorem category_attachment (t o r w : string) (lfs : list LogFile) :
  settled (fetchWorkflowLogs fetch t o r w) = Ok lfs ->
  exists response data,
    fetch (logs_url t o r w) = Ok response /\ json response = Ok data /\
    Forall2
      (fun jf lf =>
         Forall2 (fun src e =>
                    message e = snd src /\
                    category e = if fst src =? "SingleLogs" then None
                                 else Some (fst src))
                 (source_lines (file_data (prop data "cleanedLogs") jf))
                 (logs lf))
      (filter (has_entries (prop data "cleanedLogs"))
              (job_file_pairs (prop data "cleanedLogs")))
      lfs /\
    forall lf e, In lf lfs -> In e (logs lf) -> category e <> Some "SingleLogs".
Proof.
  intro H. apply fetchWorkflowLogs_Ok_inv in H.
  destruct H as (response & data & Hr & _ & Hd & Hn).
  exists response, data. apply normalize_Ok in Hn. subst lfs.
  repeat split; auto.
  - unfold expected_files. apply Forall2_map_In. intros jf _. simpl.
    apply Forall2_map_In. intros src _. split; reflexivity.
  - intros lf e Hlf He. apply expected_files_In in Hlf.
    destruct Hlf as (jf & _ & _ & _ & Hlogs). rewrite Hlogs in He.
    apply in_map_iff in He. destruct He as (src & <- & _).
    apply entry_of_category.
Qed.

(** C10: every entry of a returned log file has its type field set, to one
    of "info", "success", "warning" and "error". *)
Theorem entry_type_defined (t o r w : string) (lfs : list LogFile)
    (lf : LogFile) (e : LogEntry) :
  settled (fetchWorkflowLogs fetch t o r w) = Ok lfs ->
  In lf lfs -> In e (logs lf) ->
  type e = Some "info" \/ type e = Some "success" \/
  type e = Some "warning" \/ type e = Some "error".
Proof.
  intros H Hlf He. apply fetchWorkflowLogs_Ok_inv in H.
  destruct H as (response & data & _ & _ & _ & Hn).
  apply normalize_Ok in Hn. subst lfs.
  apply expected_files_In in Hlf.
  destruct Hlf as (jf & _ & _ & _ & Hlogs). rewrite Hlogs in He.
  apply in_map_iff in He. destruct He as (src & <- & _).
  unfold entry_of. simpl.
  destruct (type_of_cases (snd src)) as [-> | [-> | [-> | ->]]]; auto.
Qed.

End LogFiles.

Section LogOrder.

(** C3: what the log fetch gives depends only on the response to its
    request, so two runs that get the same response give the same outcome;
    and the log files it returns are those of the (job, file) pairs that
    have a line, in traversal order (job keys first, then the file keys of
    each job), each named job "/" file. *)
Theorem output_order (fetch1 fetch2 : string -> result Response) (t o r w : string) :
  fetch1 (logs_url t o r w) = fetch2 (logs_url t o r w) ->
  fetchWorkflowLogs fetch1 t o r w = fetchWorkflowLogs fetch2 t o r w /\
  forall lfs,
    settled (fetchWorkflowLogs fetch1 t o r w) = Ok lfs ->
    exists response data,
      fetch1 (logs_url t o r w) = Ok response /\ json response = Ok data /\
      lfs = expected_files (prop data "cleanedLogs") /\
      map name lfs
      = map (fun jf => fst jf ++ "/" ++ snd jf)
            (filter (has_entries (prop data "cleanedLogs"))
                    (job_file_pairs (prop data "cleanedLogs"))).
Proof.
  intro Hsame. split.
  - unfold fetchWorkflowLogs. fold (logs_url t o r w). now rewrite Hsame.
  - intros lfs H. apply fetchWorkflowLogs_Ok_inv in H.
    destruct H as (response & data & Hr & _ & Hd & Hn).
    exists response, data. apply normalize_Ok in Hn. subst lfs.
    repeat split; auto.
    unfold expected_files. rewrite map_map. reflexivity.
Qed.

End LogOrder.

(** ** When the normaliser throws *)

Section Totality.

(** C5 as stated fails: a job (or a file) that is [null] makes
    [Object.keys] throw, and a line that is not a string has no [includes]
    to call; the wrapper logs the error and throws it again. *)
Lemma null_job_throws :
  normalize null_job = Throw TypeError /\
  fetchWorkflowLogs (answers true null_job) "token" "owner" "repo" "42"
  = {| console_error := [("Error fetching workflow logs:", TypeError)];
       settled := Throw TypeError |} /\
  normalize numeric_line = Throw TypeError.
Proof.
  repeat split; reflexivity.
Qed.

Lemma filter_none {X} (h : X -> bool) (xs : list X) :
  (forall x, In x xs -> h x = false) -> filter h xs = [].
Proof.
  induction xs as [|x xs IH]; simpl; intro H; [reflexivity|].
  rewrite (H x (or_introl eq_refl)). apply IH. intros y Hy. apply H. now right.
Qed.

(** C5, amended: the normaliser returns, without throwing, on every payload
    that is not [null], whose [cleanedLogs] is absent or falsy or maps jobs
    to mappings of files to mappings of categories, no job and no file being
    [null], and whose array-valued categories hold strings.  The result is
    empty when [cleanedLogs] is absent and when no (job, file) pair has a
    line (no job, no file, no category, or no array among the categories);
    a category that is not an array adds no entry and no error. *)
Theorem normalize_returns (data : value) :
  payload_ok data = true ->
  exists lfs,
    normalize data = Ok lfs /\
    lfs = expected_files (prop data "cleanedLogs") /\
    (truthy (prop data "cleanedLogs") = false -> lfs = []) /\
    ((forall jf, In jf (job_file_pairs (prop data "cleanedLogs")) ->
                 total_lines (file_data (prop data "cleanedLogs") jf) = 0%nat) ->
     lfs = []) /\
    (forall fileData category entries,
       nullish fileData = false ->
       isArray (prop fileData category) = false ->
       process_category fileData category entries = Ok entries).
Proof.
  intro Hp. exists (expected_files (prop data "cleanedLogs")).
  split; [now apply normalize_total|]. split; [reflexivity|].
  split; [|split].
  - intro Ht. unfold expected_files, job_file_pairs.
    now rewrite (falsy_no_keys _ Ht).
  - intro Hz. unfold expected_files. rewrite filter_none; [reflexivity|].
    intros jf Hjf. unfold has_entries. now rewrite (Hz jf Hjf).
  - intros fd c es Hn Ha. apply own_props_nullish in Hn. destruct Hn as (ps & Hps).
    destruct (own_props_reads _ _ Hps) as (_ & _ & Hget).
    destruct (Hget c) as [Hg Hpr]. unfold process_category.
    rewrite Hg. rewrite Hpr in Ha. simpl.
    destruct (lookup c ps); try reflexivity. discriminate.
Qed.

Lemma normalize_returns_witness :
  exists lfs,
    normalize sample_logs = Ok lfs /\ List.length lfs = 2%nat.
Proof.
  destruct (normalize_returns sample_logs eq_refl) as (lfs & Hn & He & _).
  exists lfs. split; [exact Hn|]. rewrite He. reflexivity.
Defined.

End Totality.

(** ** The log export *)

Section LogExport.

(** C6: the export is to be called repo "-" title "-" name ".txt" with
    every "/" of the name turned into "-".  On a name with two "/" the code
    turns only the first: [replace] with a string pattern stops after one
    occurrence.  The file "unit/test" of the job "deploy" is exported as
    "repo-CI-deploy-unit/test.txt", not "repo-CI-deploy-unit-test.txt". *)
Lemma second_slash_kept :
  exists lfs,
    normalize sample_logs = Ok lfs /\
    option_map download (downloadLogs "repo" "CI" lfs "deploy/unit/test")
    = Some "repo-CI-deploy-unit/test.txt" /\
    option_map download (downloadLogs "repo" "CI" lfs "deploy/unit/test")
    <> Some "repo-CI-deploy-unit-test.txt".
Proof.
  eexists. split; [reflexivity|]. split; [reflexivity | discriminate].
Qed.

Lemma join_strings (ss : list string) (sep : string) :
  join (map Str ss) sep = String.concat sep ss.
Proof.
  unfold join. rewrite map_map. simpl. now rewrite map_id.
Qed.

(** X15: What the export does hold to: when the active name is the name of a log
    file, the blob is plain text, the messages of the first file of that
    name joined by newlines, one message per line; and the download is called
    repo "-" title "-" name' ".txt", where name' is the active name with its
    first "/" replaced by "-". *)
Theorem export_format (repoName workflowTitle : string) (logFiles : list LogFile)
    (activeTab : string) (activeFile : LogFile) :
  find (fun file => name file =? activeTab) logFiles = Some activeFile ->
  exists d,
    downloadLogs repoName workflowTitle logFiles activeTab = Some d /\
    blob_type d = "text/plain" /\
    content d = join (map message (logs activeFile)) newline /\
    (forall ss, map message (logs activeFile) = map Str ss ->
                content d = String.concat newline ss) /\
    (forall job rest,
       activeTab = job ++ "/" ++ rest -> ~ substring_of "/" job ->
       download d = repoName ++ "-" ++ workflowTitle ++ "-"
                    ++ (job ++ "-" ++ rest) ++ ".txt") /\
    (~ substring_of "/" activeTab ->
     download d = repoName ++ "-" ++ workflowTitle ++ "-" ++ activeTab ++ ".txt").
Proof.
  intro Hfind. unfold downloadLogs. rewrite Hfind.
  destruct logFiles as [|lf lfs]; [discriminate|]. simpl.
  eexists. split; [reflexivity|]. simpl.
  split; [reflexivity|]. split; [reflexivity|]. split; [|split].
  - intros ss ->. apply join_strings.
  - intros job rest -> Hjob. apply string_includes_false in Hjob.
    change (job ++ "/" ++ rest) with (job ++ String "/"%char rest).
    now rewrite (replace_first job rest "/"%char "-" Hjob).
  - intro Hno. apply string_includes_false in Hno.
    now rewrite (replace_absent activeTab "/"%char "-" Hno).
Qed.

Lemma export_format_witness :
  exists d,
    downloadLogs "repo" "CI"
      [{| name := "build/1.txt";
          logs := [entry_of ("SingleLogs", Str "Starting job");
                   entry_of ("Run tests", Str "Task completed")] |}]
      "build/1.txt" = Some d /\
    download d = "repo-CI-build-1.txt.txt".
Proof.
  destruct (export_format "repo" "CI"
              [{| name := "build/1.txt";
                  logs := [entry_of ("SingleLogs", Str "Starting job");
                           entry_of ("Run tests", Str "Task completed")] |}]
              "build/1.txt" _ eq_refl) as (d & Hd & _ & _ & _ & Hname & _).
  exists d. split; [exact Hd|].
  apply (Hname "build" "1.txt" eq_refl).
  intro H. apply string_includes_iff in H. discriminate.
Defined.

(** No file of the active name, no export. *)
Lemma no_active_file (repoName workflowTitle : string) (logFiles : list LogFile)
    (activeTab : string) :
  find (fun file => name file =? activeTab) logFiles = None ->
  downloadLogs repoName workflowTitle logFiles activeTab = None.
Proof.
  intro H. unfold downloadLogs. rewrite H. now destruct (_ =? _)%nat.
Qed.

End LogExport.

(** ** The repository and workflow fetches *)

Section Fetches.

Variable fetch : string -> result Response.

Lemma get_prop (v : value) (k : string) :
  nullish v = false -> get v k = Ok (prop v k).
Proof.
  intro H. apply own_props_nullish in H. destruct H as (ps & Hps).
  destruct (own_props_reads _ _ Hps) as (_ & _ & Hget).
  destruct (Hget k) as [-> ->]. reflexivity.
Qed.

Lemma array_map_total {X Y} (f : X -> result Y) (g : X -> Y) (xs : list X) :
  (forall x, In x xs -> f x = Ok (g x)) -> array_map f xs = Ok (map g xs).
Proof.
  induction xs as [|x xs IH]; simpl; intro H; [reflexivity|].
  rewrite (H x (or_introl eq_refl)). simpl.
  rewrite IH by (intros y Hy; apply H; now right). reflexivity.
Qed.

Lemma or_else_defaulted (field : value) : defaulted field (or_else field (Num 0)).
Proof.
  split.
  - now intros ->.
  - intros n ->. unfold or_else. simpl. destruct (n =? 0)%Z eqn:E; simpl.
    + apply Z.eqb_eq in E. now subst n.
    + reflexivity.
Qed.

(** C7: on an [ok] response whose body is not [null] and whose [storeLogs]
    is absent or an array without [null], the workflow fetch returns, and
    each counter of its stats is the payload's field ([success], [failure],
    [Progress], [Cancel]) when that is a number and 0 when it is absent; on
    the payload [{success: 3}] the stats are 3, 0, 0, 0. *)
Theorem stats_default_to_zero (t o r : string) (response : Response) (data : value) :
  fetch (workflows_url t o r) = Ok response ->
  ok response = true ->
  json response = Ok data ->
  nullish data = false ->
  storeLogs_ok data = true ->
  exists workflows stats,
    settled (fetchWorkflows fetch t o r) = Ok (workflows, stats) /\
    defaulted (prop data "success") (success stats) /\
    defaulted (prop data "failure") (failure stats) /\
    defaulted (prop data "Progress") (progress stats) /\
    defaulted (prop data "Cancel") (cancel stats) /\
    (data = Obj [("success", Num 3)] ->
     stats = {| success := Num 3; failure := Num 0;
                progress := Num 0; cancel := Num 0 |}).
Proof.
  intros Hr Hok Hd Hn Hs.
  unfold fetchWorkflows. fold (workflows_url t o r).
  rewrite try_catch_settled, Hr. simpl. rewrite Hok. simpl. rewrite Hd. simpl.
  rewrite !(get_prop data _ Hn). simpl.
  assert (Hw : exists ws,
             match prop data "storeLogs" with
             | Undefined | Null => Ok []
             | _ => map_method (prop data "storeLogs")
                      (fun log => i <- get log "id" ;;
                                  t <- get log "display_title" ;;
                                  Ok {| id := i; display_title := t |})
             end = Ok ws).
  { unfold storeLogs_ok in Hs.
    destruct (prop data "storeLogs") as [| | b | n | s | l | ps];
      try discriminate; try (now exists []).
    rewrite forallb_forall in Hs. simpl.
    exists (map (fun log => {| id := prop log "id";
                               display_title := prop log "display_title" |}) l).
    apply array_map_total. intros log Hlog.
    specialize (Hs log Hlog). apply negb_true_iff in Hs.
    now rewrite !(get_prop log _ Hs). }
  destruct Hw as (ws & ->). simpl.
  eexists. eexists. split; [reflexivity|]. simpl.
  repeat (split; [apply or_else_defaulted|]).
  intros ->. reflexivity.
Qed.

End Fetches.

Lemma stats_default_to_zero_witness :
  exists workflows,
    settled (fetchWorkflows (answers true (Obj [("success", Num 3)]))
               "token" "owner" "repo")
    = Ok (workflows, {| success := Num 3; failure := Num 0;
                        progress := Num 0; cancel := Num 0 |}).
Proof.
  destruct (stats_default_to_zero (answers true (Obj [("success", Num 3)]))
              "token" "owner" "repo" _ _ eq_refl eq_refl eq_refl eq_refl eq_refl)
    as (ws & stats & H & _ & _ & _ & _ & Hstats).
  exists ws. rewrite H, (Hstats eq_refl). reflexivity.
Defined.

Section Failures.

Variable fetch : string -> result Response.

Lemma get_cases (v : value) (k : string) :
  get v k = Ok (prop v k) \/ (get v k = Throw TypeError /\ prop v k = Undefined).
Proof.
  unfold prop, get. destruct v; simpl; auto.
Qed.

(** C8: each of the three wrappers, on a response whose status is not [ok],
    logs and throws its own error; it does not return a result. *)
Theorem failed_status_throws (t o r w : string) (response : Response) :
  ok response = false ->
  (fetch (repos_url t) = Ok response ->
   fetchRepositories fetch t
   = {| console_error := [("Error fetching repositories:",
                           Error "Failed to fetch repositories")];
        settled := Throw (Error "Failed to fetch repositories") |}) /\
  (fetch (workflows_url t o r) = Ok response ->
   fetchWorkflows fetch t o r
   = {| console_error := [("Error fetching workflows:",
                           Error "Failed to fetch workflows")];
        settled := Throw (Error "Failed to fetch workflows") |}) /\
  (fetch (logs_url t o r w) = Ok response ->
   fetchWorkflowLogs fetch t o r w
   = {| console_error := [("Error fetching workflow logs:",
                           Error "Failed to fetch workflow logs")];
        settled := Throw (Error "Failed to fetch workflow logs") |}).
Proof.
  intro Hok. repeat split; intro Hr.
  - unfold fetchRepositories. fold (repos_url t).
    rewrite Hr. simpl. rewrite Hok. reflexivity.
  - unfold fetchWorkflows. fold (workflows_url t o r).
    rewrite Hr. simpl. rewrite Hok. reflexivity.
  - unfold fetchWorkflowLogs. fold (logs_url t o r w).
    rewrite Hr. simpl. rewrite Hok. reflexivity.
Qed.

(** C9: on an [ok] response with a JSON body, the repository fetch wraps
    the elements of [repoNames] one by one, keeping their number and order,
    when [repoNames] is an array, and throws a type error whenever it is
    not (absent included): it never falls back to an empty list. *)
Theorem repositories_need_repoNames (t : string) (response : Response) (data : value) :
  fetch (repos_url t) = Ok response ->
  ok response = true ->
  json response = Ok data ->
  (forall names,
     prop data "repoNames" = Arr names ->
     exists repos,
       settled (fetchRepositories fetch t) = Ok repos /\
       repos = map (fun n => {| repoName := n |}) names /\
       List.length repos = List.length names /\
       map repoName repos = names) /\
  (isArray (prop data "repoNames") = false ->
   fetchRepositories fetch t
   = {| console_error := [("Error fetching repositories:", TypeError)];
        settled := Throw TypeError |}).
Proof.
  intros Hr Hok Hd. unfold fetchRepositories. fold (repos_url t).
  rewrite Hr. simpl. rewrite Hok. simpl. rewrite Hd. simpl.
  destruct (get_cases data "repoNames") as [Hg | [Hg Hp]]; rewrite Hg; simpl.
  - split.
    + intros names ->. simpl.
      rewrite (array_map_total _ (fun n => {| repoName := n |}))
        by reflexivity.
      eexists. split; [reflexivity|]. split; [reflexivity|].
      rewrite length_map, map_map. simpl. now rewrite map_id.
    + intro Ha. destruct (prop data "repoNames"); try reflexivity. discriminate.
  - split.
    + intros names Hn. rewrite Hp in Hn. discriminate.
    + reflexivity.
Qed.

End Failures.

Lemma failed_status_throws_witness :
  settled (fetchRepositories (answers false Null) "token")
  = Throw (Error "Failed to fetch repositories") /\
  settled (fetchWorkflows (answers false Null) "token" "owner" "repo")
  = Throw (Error "Failed to fetch workflows") /\
  settled (fetchWorkflowLogs (answers false Null) "token" "owner" "repo" "42")
  = Throw (Error "Failed to fetch workflow logs").
Proof.
  destruct (failed_status_throws (answers false Null) "token" "owner" "repo" "42"
              {| ok := false; json := Ok Null |} eq_refl) as (H1 & H2 & H3).
  rewrite (H1 eq_refl), (H2 eq_refl), (H3 eq_refl). repeat split.
Defined.

Lemma repositories_need_repoNames_witness :
  settled (fetchRepositories
             (answers true (Obj [("repoNames", Arr [Str "dashboard"; Str "backend"])]))
             "token")
  = Ok [{| repoName := Str "dashboard" |}; {| repoName := Str "backend" |}] /\
  settled (fetchRepositories (answers true (Obj [("repos", Arr [])])) "token")
  = Throw TypeError.
Proof.
  split.
  - destruct (repositories_need_repoNames
                (answers true (Obj [("repoNames", Arr [Str "dashboard"; Str "backend"])]))
                "token" _ _ eq_refl eq_refl eq_refl) as [H _].
    destruct (H _ eq_refl) as (repos & Hs & He & _).
    rewrite Hs, He. reflexivity.
  - destruct (repositories_need_repoNames
                (answers true (Obj [("repos", Arr [])]))
                "token" _ _ eq_refl eq_refl eq_refl) as [_ H].
    rewrite (H eq_refl). reflexivity.
Defined.

(** Witnesses of the log-file properties, on the sample payload. *)

Lemma entry_counts_witness :
  exists lfs,
    settled (fetchWorkflowLogs (answers true sample_logs) "token" "owner" "repo" "42")
    = Ok lfs /\
    map (fun lf => List.length (logs lf)) lfs = [4; 1]%nat.
Proof.
  destruct (entry_counts (answers true sample_logs) "token" "owner" "repo" "42"
              _ _ eq_refl eq_refl eq_refl eq_refl) as (lfs & Hs & _).
  exists lfs. split; [exact Hs|].
  apply fetchWorkflowLogs_Ok_inv in Hs.
  destruct Hs as (response & data & Hr & _ & Hd & Hn).
  injection Hr as <-. injection Hd as <-.
  injection Hn as <-. reflexivity.
Defined.

Lemma category_attachment_witness :
  category (entry_of ("SingleLogs", Str "Starting job")) <> Some "SingleLogs".
Proof.
  destruct (category_attachment (answers true sample_logs) "token" "owner" "repo" "42"
              (expected_files (prop sample_logs "cleanedLogs")) eq_refl)
    as (response & data & _ & _ & _ & H).
  apply (H {| name := "build/1_setup.txt";
              logs := map entry_of
                          [("SingleLogs", Str "Starting job");
                           ("SingleLogs", Str "Waiting for runner");
                           ("Run tests", Str "Task completed");
                           ("Run tests", Str "Step failed")] |}).
  - left. reflexivity.
  - left. reflexivity.
Defined.

Lemma entry_type_defined_witness :
  type (entry_of ("Upload", Str "upload success")) = Some "info" \/
  type (entry_of ("Upload", Str "upload success")) = Some "success" \/
  type (entry_of ("Upload", Str "upload success")) = Some "warning" \/
  type (entry_of ("Upload", Str "upload success")) = Some "error".
Proof.
  apply (entry_type_defined (answers true sample_logs) "token" "owner" "repo" "42"
           (expected_files (prop sample_logs "cleanedLogs"))
           {| name := "deploy/unit/test";
              logs := [entry_of ("Upload", Str "upload success")] |}
           (entry_of ("Upload", Str "upload success"))).
  - reflexivity.
  - right. left. reflexivity.
  - left. reflexivity.
Defined.

Lemma output_order_witness :
  exists lfs,
    settled (fetchWorkflowLogs (answers true sample_logs) "token" "owner" "repo" "42")
    = Ok lfs /\
    map name lfs = ["build/1_setup.txt"; "deploy/unit/test"].
Proof.
  exists (expected_files (prop sample_logs "cleanedLogs")).
  split; [reflexivity|].
  destruct (output_order (answers true sample_logs) (answers true sample_logs)
              "token" "owner" "repo" "42" eq_refl) as [_ Hord].
  destruct (Hord _ eq_refl) as (response & data & Hr & Hd & _ & Hnames).
  injection Hr as Hr. subst response. injection Hd as Hd. subst data.
  exact (eq_trans Hnames eq_refl).
Defined.

(** * Further properties of the code *)

Import Viewer Coverage.

(** ** When the normaliser returns *)

Section Acceptance.

(** A loop whose steps either append or throw, the choice depending on the
    element only: it appends everything or throws. *)
Lemma forEach_decides {X Y} (f : X -> list Y -> result (list Y)) (p : X -> bool)
    (g : X -> list Y) (e : error) (xs : list X) :
  (forall x, In x xs -> forall s,
        f x s = if p x then Ok (s ++ g x)%list else Throw e) ->
  forall s, forEach xs f s
            = if forallb p xs then Ok (s ++ flat_map g xs)%list else Throw e.
Proof.
  induction xs as [|x xs IH]; simpl; intros Hf s.
  - now rewrite app_nil_r.
  - rewrite (Hf x (or_introl eq_refl)). destruct (p x); simpl; [|reflexivity].
    rewrite IH by (intros y Hy; apply Hf; now right).
    destruct (forallb p xs); [now rewrite app_assoc | reflexivity].
Qed.

Lemma detect_type_decides (log : value) :
  detect_type log = if line_ok log then Ok (type_of log) else Throw TypeError.
Proof.
  destruct log as [| | b | n | s | l | ps]; try reflexivity.
  - apply detect_type_Str.
  - simpl. unfold type_of, detect_type, includes, bind.
    repeat match goal with
           | |- context [if ?b then _ else _] => destruct b
           end; reflexivity.
Qed.

Lemma push_entry_decides (c : string) (log : value) (es : list LogEntry) :
  push_entry c log es
  = if line_ok log then Ok (es ++ [entry_of (c, log)])%list else Throw TypeError.
Proof.
  unfold push_entry. rewrite detect_type_decides.
  destruct (line_ok log); reflexivity.
Qed.

Lemma process_category_decides (fd : value) (ps : list (string * value))
    (c : string) (es : list LogEntry) :
  own_props fd = Ok ps ->
  process_category fd c es
  = if category_accepted (lookup c ps)
    then Ok (es ++ map entry_of (map (pair c) (lines (prop fd c))))%list
    else Throw TypeError.
Proof.
  intro Hps. destruct (own_props_reads _ _ Hps) as (_ & _ & Hget).
  destruct (Hget c) as [Hg Hp]. unfold process_category. rewrite Hg, Hp. simpl.
  destruct (lookup c ps) as [| | b | n | s | l | qs]; simpl;
    try now rewrite app_nil_r.
  rewrite map_map, <- flat_map_single.
  apply forEach_decides. intros log _ s. apply push_entry_decides.
Qed.

Lemma process_file_decides (j : string) (jl : value) (ps : list (string * value))
    (f : string) (lfs : list LogFile) :
  own_props jl = Ok ps ->
  process_file j jl f lfs
  = if file_accepted (lookup f ps)
    then Ok (lfs ++ file_block (j, f) (prop jl f))%list
    else Throw TypeError.
Proof.
  intro Hps. destruct (own_props_reads _ _ Hps) as (_ & _ & Hget).
  destruct (Hget f) as [Hg Hp]. unfold process_file. rewrite Hg, Hp. simpl.
  set (fd := lookup f ps). unfold file_accepted, all_props, Object_keys.
  destruct (own_props fd) as [qs|e] eqn:Hqs.
  - destruct (own_props_reads _ _ Hqs) as (_ & Hkeys & _). simpl.
    rewrite (forEach_decides _ (fun c => category_accepted (lookup c qs))
               (fun c => map entry_of (map (pair c) (lines (prop fd c)))) TypeError)
      by (intros c _ s; now apply process_category_decides).
    destruct (forallb _ (map fst qs)); simpl; [|reflexivity].
    assert (Hsrc : flat_map (fun c => map entry_of (map (pair c) (lines (prop fd c))))
                            (map fst qs)
                   = map entry_of (source_lines fd)).
    { unfold source_lines. now rewrite map_flat_map, Hkeys. }
    rewrite Hsrc. unfold file_block. rewrite <- file_entries_length.
    destruct (0 <? _)%nat; [reflexivity | now rewrite app_nil_r].
  - destruct fd; simpl in Hqs; try discriminate; injection Hqs as <-; reflexivity.
Qed.

Lemma process_job_decides (c : value) (ps : list (string * value)) (j : string)
    (lfs : list LogFile) :
  own_props c = Ok ps ->
  process_job c j lfs
  = if job_accepted (lookup j ps) then Ok (lfs ++ job_block c j)%list
    else Throw TypeError.
Proof.
  intro Hps. destruct (own_props_reads _ _ Hps) as (_ & _ & Hget).
  destruct (Hget j) as [Hg Hp]. unfold process_job, job_block, file_data.
  simpl. rewrite Hg, Hp. simpl.
  set (jl := lookup j ps). unfold job_accepted, all_props, Object_keys.
  destruct (own_props jl) as [qs|e] eqn:Hqs.
  - destruct (own_props_reads _ _ Hqs) as (_ & Hkeys & _). simpl.
    rewrite Hkeys. apply forEach_decides. intros f _ s.
    now apply process_file_decides.
  - destruct jl; simpl in Hqs; try discriminate; injection Hqs as <-; reflexivity.
Qed.

(** X1: On any payload the normaliser either returns the log files the payload
    stands for or throws a type error, and it returns exactly when the
    payload is not [null] and its [cleanedLogs] is falsy or has no [null]
    job, no [null] file and only strings or arrays as lines. *)
Theorem normalize_decides (data : value) :
  normalize data
  = if accepted data then Ok (expected_files (prop data "cleanedLogs"))
    else Throw TypeError.
Proof.
  unfold accepted, normalize.
  destruct (nullish data) eqn:Hn; simpl.
  - destruct data; try discriminate; reflexivity.
  - rewrite (get_prop data _ Hn). simpl.
    set (c := prop data "cleanedLogs").
    rewrite <- blocks_expected.
    destruct (truthy c) eqn:Ht; simpl.
    + unfold logs_accepted, all_props, Object_keys.
      destruct (own_props c) as [qs|e] eqn:Hqs.
      * destruct (own_props_reads _ _ Hqs) as (_ & Hkeys & _). simpl.
        rewrite Hkeys.
        apply (forEach_decides _ (fun j => job_accepted (lookup j qs)) (job_block c)).
        intros j _ s. now apply process_job_decides.
      * destruct c; simpl in Hqs; try discriminate; injection Hqs as <-; reflexivity.
    + now rewrite (falsy_no_keys _ Ht).
Qed.

End Acceptance.

(** ** Invariants of the returned log files *)

Section ReturnedFiles.

Variable fetch : string -> result Response.

Lemma append_assoc (a b c : string) : (a ++ b) ++ c = a ++ b ++ c.
Proof.
  induction a as [|x a IH]; simpl; [reflexivity | now rewrite IH].
Qed.

Lemma list_sum_positive_part {X} (f : X -> nat) (xs : list X) :
  list_sum (map f (filter (fun x => (0 <? f x)%nat) xs)) = list_sum (map f xs).
Proof.
  induction xs as [|x xs IH]; simpl; [reflexivity|].
  destruct (0 <? f x)%nat eqn:E; simpl; rewrite IH; [reflexivity|].
  apply Nat.ltb_ge in E. lia.
Qed.

(** X2: Every log file the fetch returns has at least one entry, and its name
    is a job key, "/", and a file key of that job, so it contains a "/". *)
Theorem returned_files_nonempty (t o r w : string) (lfs : list LogFile) (lf : LogFile) :
  settled (fetchWorkflowLogs fetch t o r w) = Ok lfs ->
  In lf lfs ->
  logs lf <> [] /\
  substring_of "/" (name lf) /\
  exists response data job file,
    fetch (logs_url t o r w) = Ok response /\ json response = Ok data /\
    In job (keys_of (prop data "cleanedLogs")) /\
    In file (keys_of (prop (prop data "cleanedLogs") job)) /\
    name lf = job ++ "/" ++ file.
Proof.
  intros H Hlf. apply fetchWorkflowLogs_Ok_inv in H.
  destruct H as (response & data & Hr & _ & Hd & Hn).
  apply normalize_Ok in Hn. subst lfs. apply expected_files_In in Hlf.
  destruct Hlf as ([job file] & Hpair & Hhas & Hname & Hlogs).
  split; [|split].
  - intro Hnil. unfold has_entries in Hhas. apply Nat.ltb_lt in Hhas.
    rewrite <- file_entries_length, <- Hlogs, Hnil in Hhas. simpl in Hhas. lia.
  - exists job, file. exact Hname.
  - exists response, data, job, file. repeat split; auto.
    + unfold job_file_pairs in Hpair. apply in_flat_map in Hpair.
      destruct Hpair as (j & Hj & Hjf). apply in_map_iff in Hjf.
      destruct Hjf as (f & Heq & _). now injection Heq as -> _.
    + unfold job_file_pairs in Hpair. apply in_flat_map in Hpair.
      destruct Hpair as (j & Hj & Hjf). apply in_map_iff in Hjf.
      destruct Hjf as (f & Heq & Hf). now injection Heq as -> ->.
Qed.

(** X3: No line is lost or repeated: the entries of all returned log files are
    as many as the elements of all array-valued categories of all files of
    all jobs of the payload. *)
Theorem lines_are_conserved (t o r w : string) (lfs : list LogFile) :
  settled (fetchWorkflowLogs fetch t o r w) = Ok lfs ->
  exists response data,
    fetch (logs_url t o r w) = Ok response /\ json response = Ok data /\
    list_sum (map (fun lf => List.length (logs lf)) lfs)
    = list_sum (map (fun jf => total_lines (file_data (prop data "cleanedLogs") jf))
                    (job_file_pairs (prop data "cleanedLogs"))).
Proof.
  intro H. apply fetchWorkflowLogs_Ok_inv in H.
  destruct H as (response & data & Hr & _ & Hd & Hn).
  exists response, data. split; [exact Hr|]. split; [exact Hd|].
  apply normalize_Ok in Hn. subst lfs. unfold expected_files.
  rewrite map_map. simpl.
  rewrite <- (list_sum_positive_part
                (fun jf => total_lines (file_data (prop data "cleanedLogs") jf))).
  f_equal. apply map_ext. intro jf. apply file_entries_length.
Qed.

End ReturnedFiles.

Lemma returned_files_nonempty_witness :
  logs {| name := "deploy/unit/test";
          logs := [entry_of ("Upload", Str "upload success")] |} <> [] /\
  substring_of "/" "deploy/unit/test".
Proof.
  destruct (returned_files_nonempty (answers true sample_logs)
              "token" "owner" "repo" "42"
              (expected_files (prop sample_logs "cleanedLogs"))
              {| name := "deploy/unit/test";
                 logs := [entry_of ("Upload", Str "upload success")] |}
              eq_refl (or_intror (or_introl eq_refl))) as (H1 & H2 & _).
  split; [exact H1 | exact H2].
Defined.

Lemma lines_are_conserved_witness :
  list_sum (map (fun lf => List.length (logs lf))
                (expected_files (prop sample_logs "cleanedLogs"))) = 5%nat.
Proof.
  destruct (lines_are_conserved (answers true sample_logs)
              "token" "owner" "repo" "42"
              (expected_files (prop sample_logs "cleanedLogs")) eq_refl)
    as (response & data & Hr & Hd & Hsum).
  injection Hr as Hr. subst response. injection Hd as Hd. subst data.
  exact (eq_trans Hsum eq_refl).
Defined.

(** ** The wrappers: errors, requests, workflows *)

Section WrapperErrors.

Variable fetch : string -> result Response.

(** X4: Whatever [fetch] rejects with, and whatever [response.json()] throws on
    an [ok] response, is what each wrapper logs, once, and rejects with: the
    error is neither swallowed nor replaced. *)
Theorem rejections_are_rethrown (t o r w : string) (e : error) :
  (fetch (repos_url t) = Throw e \/
   (exists response, fetch (repos_url t) = Ok response /\
                     ok response = true /\ json response = Throw e) ->
   fetchRepositories fetch t
   = {| console_error := [("Error fetching repositories:", e)];
        settled := Throw e |}) /\
  (fetch (workflows_url t o r) = Throw e \/
   (exists response, fetch (workflows_url t o r) = Ok response /\
                     ok response = true /\ json response = Throw e) ->
   fetchWorkflows fetch t o r
   = {| console_error := [("Error fetching workflows:", e)];
        settled := Throw e |}) /\
  (fetch (logs_url t o r w) = Throw e \/
   (exists response, fetch (logs_url t o r w) = Ok response /\
                     ok response = true /\ json response = Throw e) ->
   fetchWorkflowLogs fetch t o r w
   = {| console_error := [("Error fetching workflow logs:", e)];
        settled := Throw e |}).
Proof.
  repeat split; intros [Hr | (response & Hr & Hok & Hd)].
  - unfold fetchRepositories. fold (repos_url t). now rewrite Hr.
  - unfold fetchRepositories. fold (repos_url t).
    rewrite Hr. simpl. rewrite Hok. simpl. now rewrite Hd.
  - unfold fetchWorkflows. fold (workflows_url t o r). now rewrite Hr.
  - unfold fetchWorkflows. fold (workflows_url t o r).
    rewrite Hr. simpl. rewrite Hok. simpl. now rewrite Hd.
  - unfold fetchWorkflowLogs. fold (logs_url t o r w). now rewrite Hr.
  - unfold fetchWorkflowLogs. fold (logs_url t o r w).
    rewrite Hr. simpl. rewrite Hok. simpl. now rewrite Hd.
Qed.

Lemma array_map_decides {X Y} (f : X -> result Y) (p : X -> bool) (g : X -> Y)
    (e : error) (xs : list X) :
  (forall x, f x = if p x then Ok (g x) else Throw e) ->
  array_map f xs = if forallb p xs then Ok (map g xs) else Throw e.
Proof.
  intro Hf. induction xs as [|x xs IH]; simpl; [reflexivity|].
  rewrite Hf. destruct (p x); simpl; [|reflexivity].
  rewrite IH. now destruct (forallb p xs).
Qed.

Lemma workflow_of_decides (log : value) :
  (i <- get log "id" ;; t <- get log "display_title" ;;
   Ok {| id := i; display_title := t |})
  = if negb (nullish log) then Ok (workflow_of log) else Throw TypeError.
Proof.
  destruct (nullish log) eqn:Hn; simpl.
  - destruct log; try discriminate; reflexivity.
  - now rewrite !(get_prop log _ Hn).
Qed.

(** X5: On an [ok] response with a JSON body that is not [null], the workflows
    returned are those of [storeLogs], in order and as many, each with the
    [id] and [display_title] of its element ([undefined] when the element has
    none); without [storeLogs], or with a [null] one, there are none. *)
Theorem workflows_follow_storeLogs (t o r : string) (response : Response) (data : value) :
  fetch (workflows_url t o r) = Ok response ->
  ok response = true ->
  json response = Ok data ->
  nullish data = false ->
  (forall l, prop data "storeLogs" = Arr l ->
             forallb (fun log => negb (nullish log)) l = true ->
             exists stats,
               settled (fetchWorkflows fetch t o r) = Ok (map workflow_of l, stats)) /\
  (nullish (prop data "storeLogs") = true ->
   exists stats, settled (fetchWorkflows fetch t o r) = Ok ([], stats)).
Proof.
  intros Hr Hok Hd Hn.
  unfold fetchWorkflows. fold (workflows_url t o r).
  rewrite try_catch_settled, Hr. simpl. rewrite Hok. simpl. rewrite Hd. simpl.
  rewrite !(get_prop data _ Hn). simpl. split.
  - intros l -> Hl. simpl.
    rewrite (array_map_decides _ (fun log => negb (nullish log)) workflow_of TypeError)
      by apply workflow_of_decides.
    rewrite Hl. simpl. eexists. reflexivity.
  - intro Hs. destruct (prop data "storeLogs"); try discriminate;
      simpl; eexists; reflexivity.
Qed.

(** X6: The optional chaining on [storeLogs] guards against a missing field
    only: a [storeLogs] that is present but no array (a string, a number, an
    object), or an array holding a [null], makes the workflow fetch log and
    reject with a type error, stats included. *)
Theorem storeLogs_must_be_array (t o r : string) (response : Response) (data : value) :
  fetch (workflows_url t o r) = Ok response ->
  ok response = true ->
  json response = Ok data ->
  storeLogs_ok data = false ->
  fetchWorkflows fetch t o r
  = {| console_error := [("Error fetching workflows:", TypeError)];
       settled := Throw TypeError |}.
Proof.
  intros Hr Hok Hd Hs.
  unfold fetchWorkflows. fold (workflows_url t o r).
  rewrite Hr. simpl. rewrite Hok. simpl. rewrite Hd. simpl.
  destruct (nullish data) eqn:Hn.
  - destruct data; try discriminate; reflexivity.
  - rewrite !(get_prop data _ Hn). simpl. unfold storeLogs_ok in Hs.
    destruct (prop data "storeLogs") as [| | b | n | s | l | ps];
      try discriminate; try reflexivity.
    simpl.
    rewrite (array_map_decides _ (fun log => negb (nullish log)) workflow_of TypeError)
      by apply workflow_of_decides.
    rewrite Hs. reflexivity.
Qed.

End WrapperErrors.

Section Requests.

Lemma urls_under_prefix (t o r w : string) :
  starts_with api_prefix (repos_url t) = true /\
  starts_with api_prefix (workflows_url t o r) = true /\
  starts_with api_prefix (logs_url t o r w) = true.
Proof.
  unfold api_prefix, repos_url, workflows_url, logs_url.
  repeat split;
    rewrite <- (append_assoc API_BASE_URL "/user/repos/"); apply starts_with_app.
Qed.

(** X7: The wrappers request nothing outside [API_BASE_URL/user/repos/]: two
    networks that answer alike under that prefix give the same outcomes,
    whatever the arguments. *)
Theorem requests_stay_under_prefix (fetch1 fetch2 : string -> result Response)
    (t o r w : string) :
  (forall url, starts_with api_prefix url = true -> fetch1 url = fetch2 url) ->
  fetchRepositories fetch1 t = fetchRepositories fetch2 t /\
  fetchWorkflows fetch1 t o r = fetchWorkflows fetch2 t o r /\
  fetchWorkflowLogs fetch1 t o r w = fetchWorkflowLogs fetch2 t o r w.
Proof.
  intro H. destruct (urls_under_prefix t o r w) as (H1 & H2 & H3).
  repeat split.
  - unfold fetchRepositories. fold (repos_url t). now rewrite (H _ H1).
  - unfold fetchWorkflows. fold (workflows_url t o r). now rewrite (H _ H2).
  - unfold fetchWorkflowLogs. fold (logs_url t o r w). now rewrite (H _ H3).
Qed.

End Requests.

(** ** Loading logs into the viewer *)

Section Loading.

Variable fetch : string -> result Response.

Lemma outcome_console (t o r w : string) :
  match settled (fetchWorkflowLogs fetch t o r w) with
  | Ok _ => console_error (fetchWorkflowLogs fetch t o r w) = []
  | Throw e => console_error (fetchWorkflowLogs fetch t o r w)
               = [("Error fetching workflow logs:", e)]
  end.
Proof.
  unfold fetchWorkflowLogs.
  match goal with |- context [try_catch _ ?b] => destruct b end; reflexivity.
Qed.

Lemma guard_open (t o r w : string) :
  t <> "" -> o <> "" -> r <> "" -> w <> "" ->
  empty t || empty o || empty r || empty w = false.
Proof.
  intros Ht Ho Hr Hw. unfold empty.
  apply String.eqb_neq in Ht, Ho, Hr, Hw. now rewrite Ht, Ho, Hr, Hw.
Qed.

(** X8: Without an access token, an owner, a repository or a workflow id
    (missing or empty), [loadLogs] does nothing at all: no request, no
    message, the state as it was; a viewer that is still in its initial
    state goes on showing the loading skeleton. *)
Theorem load_needs_credentials (auth : Auth) (repoName workflowId : string) (st : State) :
  (forall t o, accessToken auth = Some t -> ownerName auth = Some o ->
               t = "" \/ o = "" \/ repoName = "" \/ workflowId = "") ->
  loadLogs fetch auth repoName workflowId st
  = {| state := st; console := []; toasts := [] |} /\
  render (state (loadLogs fetch auth repoName workflowId initial)) = Skeleton.
Proof.
  intro H.
  assert (Hun : forall s, loadLogs fetch auth repoName workflowId s = unchanged s).
  { intro s. unfold loadLogs.
    destruct (accessToken auth) as [t|]; [|reflexivity].
    destruct (ownerName auth) as [o|]; [|reflexivity].
    destruct (H t o eq_refl eq_refl) as [-> | [-> | [-> | ->]]]; simpl;
      rewrite ?orb_true_r; reflexivity. }
  rewrite !Hun. split; reflexivity.
Qed.

(** X9: When the log fetch fails, the viewer keeps the log files and the active
    name it had, stops loading, shows one error toast, and the error has
    been logged twice: by the wrapper and by [loadLogs]. *)
Theorem failed_load_keeps_logs (auth : Auth) (t o repoName workflowId : string)
    (st : State) (e : error) :
  accessToken auth = Some t -> ownerName auth = Some o ->
  t <> "" -> o <> "" -> repoName <> "" -> workflowId <> "" ->
  settled (fetchWorkflowLogs fetch t o repoName workflowId) = Throw e ->
  loadLogs fetch auth repoName workflowId st
  = {| state := {| logFiles := logFiles st;
                   activeTab := activeTab st;
                   loading := false |};
       console := [("Error fetching workflow logs:", e);
                   ("Failed to fetch logs:", e)];
       toasts := [toast_error "Failed to load workflow logs"] |}.
Proof.
  intros Ha Ho Ht Hno Hr Hw Hs. unfold loadLogs.
  rewrite Ha, Ho, (guard_open _ _ _ _ Ht Hno Hr Hw).
  pose proof (outcome_console t o repoName workflowId) as Hc.
  simpl. rewrite Hs in *. now rewrite Hc.
Qed.


End Loading.

(** ** Grouping the active file by category *)

Section Grouping.

Lemma has_own_keys {V} (k : string) (groups : list (string * V)) :
  has_own k groups = true <-> In k (map fst groups).
Proof.
  unfold has_own. rewrite existsb_exists. split.
  - intros (g & Hg & Hk). apply String.eqb_eq in Hk. subst k. now apply in_map.
  - intro H. apply in_map_iff in H. destruct H as (g & <- & Hg).
    exists g. split; [exact Hg | apply String.eqb_refl].
Qed.

Lemma push_to_keys (k : string) (log : LogEntry) (groups : list (string * list LogEntry)) :
  map fst (push_to k log groups) = map fst groups.
Proof.
  induction groups as [|[k' es] rest IH]; simpl; [reflexivity|].
  destruct (k' =? k); simpl; [reflexivity | now rewrite IH].
Qed.

Lemma group_push_to (k key : string) (log : LogEntry)
    (groups : list (string * list LogEntry)) :
  has_own key groups = true ->
  group k (push_to key log groups)
  = if key =? k then (group k groups ++ [log])%list else group k groups.
Proof.
  unfold has_own.
  induction groups as [|[k' es] rest IH]; simpl; [discriminate|].
  destruct (k' =? key) eqn:E; simpl.
  - intros _. apply String.eqb_eq in E. subst k'. now destruct (key =? k).
  - intro H. rewrite (IH H).
    destruct (k' =? k) eqn:E'; [|reflexivity].
    apply String.eqb_eq in E'. subst k'. now rewrite String.eqb_sym, E.
Qed.

Lemma group_absent {V} (k : string) (groups : list (string * list V)) :
  has_own k groups = false -> group k groups = [].
Proof.
  induction groups as [|[k' es] rest IH]; simpl; [reflexivity|].
  intro H. apply orb_false_iff in H. destruct H as [H1 H2].
  rewrite H1. now apply IH.
Qed.

Lemma group_new_key {V} (k key : string) (groups : list (string * list V)) :
  has_own key groups = false ->
  group k (groups ++ [(key, [])]) = group k groups.
Proof.
  induction groups as [|[k' es] rest IH]; simpl; intro H.
  - now destruct (key =? k).
  - apply orb_false_iff in H. destruct H as [H1 H2].
    destruct (k' =? k); [reflexivity | now apply IH].
Qed.

Lemma has_own_new_key {V} (key : string) (v : V) (groups : list (string * V)) :
  has_own key (groups ++ [(key, v)]) = true.
Proof.
  unfold has_own. rewrite existsb_app. simpl.
  rewrite String.eqb_refl. now rewrite orb_true_r.
Qed.

Lemma group_step_keeps (seen : list LogEntry) (log : LogEntry)
    (groups groups' : list (string * list LogEntry)) :
  grouped seen groups -> group_step log groups = Ok groups' ->
  grouped (seen ++ [log]) groups'.
Proof.
  intros (Hnd & Hgr & Hkeys). unfold group_step.
  destruct (has_own (group_key log) groups) eqn:Hown.
  - intro H. injection H as <-. split; [|split].
    + now rewrite push_to_keys.
    + intro k. rewrite (group_push_to _ _ _ _ Hown), filter_app, Hgr. simpl.
      destruct (group_key log =? k); [reflexivity | now rewrite app_nil_r].
    + intros k Hk. rewrite push_to_keys in Hk. destruct (Hkeys k Hk) as [Hi Hne].
      split; [exact Hi|]. rewrite (group_push_to _ _ _ _ Hown).
      destruct (group_key log =? k); [|exact Hne].
      intro Hnil. now apply app_eq_nil in Hnil.
  - destruct (inherited (group_key log)) eqn:Hinh; [discriminate|].
    intro H. injection H as <-.
    pose proof (has_own_new_key (group_key log) (@nil LogEntry) groups) as Hnew.
    split; [|split].
    + rewrite push_to_keys, map_app. simpl.
      apply NoDup_app; [exact Hnd | repeat constructor; intros [] | ].
      intros k Hk [<- | []]. apply has_own_keys in Hk. congruence.
    + intro k. rewrite (group_push_to _ _ _ _ Hnew), (group_new_key _ _ _ Hown).
      rewrite filter_app, Hgr. simpl.
      destruct (group_key log =? k); [reflexivity | now rewrite app_nil_r].
    + intros k Hk. rewrite push_to_keys, map_app in Hk. simpl in Hk.
      rewrite (group_push_to _ _ _ _ Hnew), (group_new_key _ _ _ Hown).
      apply in_app_or in Hk. destruct Hk as [Hk | [<- | []]].
      * destruct (Hkeys k Hk) as [Hi Hne]. split; [exact Hi|].
        destruct (group_key log =? k); [|exact Hne].
        intro Hnil. now apply app_eq_nil in Hnil.
      * split; [exact Hinh|]. rewrite String.eqb_refl.
        intro Hnil. now apply app_eq_nil in Hnil.
Qed.

Lemma grouping_keeps (es seen : list LogEntry)
    (groups groups' : list (string * list LogEntry)) :
  grouped seen groups -> forEach es group_step groups = Ok groups' ->
  grouped (seen ++ es) groups'.
Proof.
  revert seen groups. induction es as [|log es IH]; simpl; intros seen groups Hg H.
  - injection H as <-. now rewrite app_nil_r.
  - apply bind_Ok_inv in H. destruct H as (g1 & H1 & H2).
    replace (seen ++ log :: es)%list with ((seen ++ [log]) ++ es)%list
      by now rewrite <- app_assoc.
    apply (IH _ g1); [|exact H2].
    now apply (group_step_keeps seen log groups).
Qed.

Lemma grouping_decides (es : list LogEntry) (groups : list (string * list LogEntry)) :
  (forall k, In k (map fst groups) -> inherited k = false) ->
  if existsb (fun e => inherited (group_key e)) es
  then forEach es group_step groups = Throw TypeError
  else exists groups', forEach es group_step groups = Ok groups'.
Proof.
  revert groups. induction es as [|log es IH]; simpl; intros groups Hk.
  - now exists groups.
  - destruct (has_own (group_key log) groups) eqn:Hown.
    + assert (Hstep : group_step log groups
                      = Ok (push_to (group_key log) log groups))
        by (unfold group_step; now rewrite Hown).
      rewrite Hstep. apply has_own_keys in Hown. rewrite (Hk _ Hown). simpl.
      apply IH. intros k Hin. rewrite push_to_keys in Hin. now apply Hk.
    + destruct (inherited (group_key log)) eqn:Hinh; simpl.
      * unfold group_step. now rewrite Hown, Hinh.
      * assert (Hstep : group_step log groups
                        = Ok (push_to (group_key log) log
                                (groups ++ [(group_key log, [])])%list))
          by (unfold group_step; now rewrite Hown, Hinh).
        rewrite Hstep. simpl.
        apply IH. intros k Hin. rewrite push_to_keys, map_app in Hin.
        apply in_app_or in Hin. destruct Hin as [Hin | [<- | []]]; auto.
Qed.

(** X11: The grouping is a partition of the active file's entries: the keys are
    distinct, each group is the entries of its key in their original order
    and is not empty, and a key that is not listed has no entry.  The key of
    an entry is its category, or "General" when the category is absent or
    empty. *)
Theorem groups_partition (file : LogFile) (groups : list (string * list LogEntry)) :
  logsByCategory (Some file) = Ok groups ->
  NoDup (map fst groups) /\
  (forall k, group k groups = filter (fun e => group_key e =? k) (logs file)) /\
  (forall k, In k (map fst groups) <-> exists e, In e (logs file) /\ group_key e = k) /\
  List.length (logs file)
  = list_sum (map (fun g => List.length (snd g)) groups).
Proof.
  intro H. simpl in H.
  assert (Hinit : grouped [] []).
  { split; [constructor | split; [reflexivity | intros k []]]. }
  pose proof (grouping_keeps _ _ _ _ Hinit H) as (Hnd & Hgr & Hkeys).
  simpl in Hgr, Hkeys.
  assert (Hiff : forall k, In k (map fst groups)
                           <-> exists e, In e (logs file) /\ group_key e = k).
  { intro k. split.
    - intro Hk. destruct (Hkeys k Hk) as [_ Hne]. rewrite Hgr in Hne.
      destruct (filter _ (logs file)) as [|e l] eqn:E; [congruence|].
      assert (He : In e (filter (fun e => group_key e =? k) (logs file)))
        by (rewrite E; now left).
      apply filter_In in He. destruct He as [He1 He2].
      apply String.eqb_eq in He2. now exists e.
    - intros (e & He & <-). apply has_own_keys.
      destruct (has_own (group_key e) groups) eqn:Hown; [reflexivity|].
      apply group_absent in Hown. rewrite Hgr in Hown.
      assert (Hin : In e (filter (fun e' => group_key e' =? group_key e) (logs file)))
        by (apply filter_In; split; [exact He | apply String.eqb_refl]).
      rewrite Hown in Hin. destruct Hin. }
  split; [exact Hnd|]. split; [exact Hgr|]. split; [exact Hiff|].
  clear H Hinit Hkeys Hiff. revert Hnd Hgr. generalize (logs file) as es.
  induction groups as [|[k ks] rest IH]; intros es Hnd Hgr; simpl.
  - destruct es as [|e es]; [reflexivity|].
    specialize (Hgr (group_key e)). simpl in Hgr.
    rewrite String.eqb_refl in Hgr. discriminate.
  - inversion Hnd as [|k0 l0 Hnotin Hnd']. subst.
    rewrite <- (IH (filter (fun e => negb (group_key e =? k)) es) Hnd').
    + pose proof (Hgr k) as Hk. simpl in Hk. rewrite String.eqb_refl in Hk.
      rewrite Hk. clear. induction es as [|e es IHes]; simpl; [reflexivity|].
      destruct (group_key e =? k); simpl; lia.
    + intro k'. pose proof (Hgr k') as Hk'. simpl in Hk'.
      destruct (k =? k') eqn:E.
      * apply String.eqb_eq in E. subst k'.
        rewrite group_absent
          by (destruct (has_own k rest) eqn:Ho; [|reflexivity];
              apply has_own_keys in Ho; contradiction).
        clear. induction es as [|e es IHes]; simpl; [reflexivity|].
        destruct (group_key e =? k) eqn:E; simpl; [exact IHes|].
        rewrite E. exact IHes.
      * rewrite Hk'. clear - E. induction es as [|e es IHes]; simpl; [reflexivity|].
        destruct (group_key e =? k) eqn:E1; destruct (group_key e =? k') eqn:E2;
          simpl; rewrite ?E2, IHes; try reflexivity.
        apply String.eqb_eq in E1, E2. subst. rewrite String.eqb_refl in E.
        discriminate.
Qed.

(** X12: The grouping throws, a type error, exactly when an entry's category is
    the name of a property every object inherits ("constructor", "toString",
    "__proto__", ...); on every other file it returns. *)
Theorem inherited_category_throws (file : LogFile) :
  (logsByCategory (Some file) = Throw TypeError <->
   exists e, In e (logs file) /\ inherited (group_key e) = true) /\
  ((forall e, In e (logs file) -> inherited (group_key e) = false) ->
   exists groups, logsByCategory (Some file) = Ok groups).
Proof.
  pose proof (grouping_decides (logs file) [] (fun k (H : In k []) => match H with end))
    as H.
  simpl. destruct (existsb _ (logs file)) eqn:E.
  - apply existsb_exists in E. split.
    + split; [intros _; exact E | intros _; exact H].
    + intro Hno. destruct E as (e & He & Hi). rewrite (Hno e He) in Hi. discriminate.
  - destruct H as (groups & Hg). split.
    + split.
      * rewrite Hg. discriminate.
      * intro Hex. apply existsb_exists in Hex. congruence.
    + intros _. now exists groups.
Qed.

End Grouping.

(** ** From the payload to the accordion and to the exported text *)

Section EndToEnd.

Variable fetch : string -> result Response.

Lemma logsByCategory_groups (file : LogFile) (groups : list (string * list LogEntry)) :
  logsByCategory (Some file) = Ok groups ->
  forall k, group k groups = filter (fun e => group_key e =? k) (logs file).
Proof.
  intro H. simpl in H.
  assert (Hinit : grouped [] []).
  { split; [constructor | split; [reflexivity | intros k []]]. }
  now destruct (grouping_keeps _ _ _ _ Hinit H) as (_ & Hgr & _).
Qed.

Lemma filter_map_swap {X Y} (p : Y -> bool) (f : X -> Y) (xs : list X) :
  filter p (map f xs) = map f (filter (fun x => p (f x)) xs).
Proof.
  induction xs as [|x xs IH]; simpl; [reflexivity|].
  destruct (p (f x)); simpl; now rewrite IH.
Qed.

Lemma group_key_entry_of (src : string * value) :
  group_key (entry_of src)
  = if (fst src =? "SingleLogs") || (fst src =? "") then "General" else fst src.
Proof.
  unfold group_key, entry_of. simpl.
  destruct (fst src =? "SingleLogs"); simpl; [reflexivity|].
  now destruct (fst src =? "").
Qed.

(** X13: In the accordion of a returned log file, the group "General" holds the
    lines of three source categories, in their order: "SingleLogs", a
    category called "General", and a category with the empty name.  There is
    no group "SingleLogs", and every other group holds the lines of the
    category of that name. *)
Theorem general_group_merges (t o r w : string) (lfs : list LogFile) (lf : LogFile)
    (groups : list (string * list LogEntry)) :
  settled (fetchWorkflowLogs fetch t o r w) = Ok lfs ->
  In lf lfs ->
  logsByCategory (Some lf) = Ok groups ->
  exists response data jf,
    fetch (logs_url t o r w) = Ok response /\ json response = Ok data /\
    In jf (job_file_pairs (prop data "cleanedLogs")) /\
    name lf = file_name jf /\
    let src := source_lines (file_data (prop data "cleanedLogs") jf) in
    group "General" groups
    = map entry_of
          (filter (fun s => (fst s =? "SingleLogs") || (fst s =? "General")
                            || (fst s =? "")) src) /\
    group "SingleLogs" groups = [] /\
    forall k, k <> "General" -> k <> "SingleLogs" -> k <> "" ->
              group k groups = map entry_of (filter (fun s => fst s =? k) src).
Proof.
  intros H Hlf Hg. apply fetchWorkflowLogs_Ok_inv in H.
  destruct H as (response & data & Hr & _ & Hd & Hn).
  apply normalize_Ok in Hn. subst lfs. apply expected_files_In in Hlf.
  destruct Hlf as (jf & Hpair & _ & Hname & Hlogs).
  exists response, data, jf. repeat (split; [assumption|]).
  pose proof (logsByCategory_groups lf groups Hg) as Hgr.
  rewrite Hlogs in Hgr. simpl. split; [|split].
  - rewrite Hgr, filter_map_swap. f_equal. apply filter_ext. intro s.
    rewrite group_key_entry_of.
    destruct (fst s =? "SingleLogs") eqn:E1; simpl; [reflexivity|].
    destruct (fst s =? "") eqn:E2; simpl.
    + now rewrite orb_true_r.
    + now rewrite orb_false_r.
  - rewrite Hgr, filter_map_swap.
    rewrite filter_none; [reflexivity|].
    intros s _. rewrite group_key_entry_of.
    destruct (fst s =? "SingleLogs") eqn:E1; simpl; [reflexivity|].
    destruct (fst s =? ""); [reflexivity | exact E1].
  - intros k Hk1 Hk2 Hk3. rewrite Hgr, filter_map_swap. f_equal.
    apply filter_ext. intro s. rewrite group_key_entry_of.
    apply String.eqb_neq in Hk1, Hk2, Hk3.
    destruct (fst s =? "SingleLogs") eqn:E1; cbn [orb].
    + apply String.eqb_eq in E1. rewrite E1.
      rewrite (String.eqb_sym "General" k), Hk1.
      now rewrite (String.eqb_sym "SingleLogs" k), Hk2.
    + destruct (fst s =? "") eqn:E2; [|reflexivity].
      apply String.eqb_eq in E2. rewrite E2.
      rewrite (String.eqb_sym "General" k), Hk1.
      now rewrite (String.eqb_sym "" k), Hk3.
Qed.

End EndToEnd.

Section RoundTrip.

Lemma split_on_absent (c : ascii) (s : string) :
  string_includes s (String c "") = false -> split_on c s = [s].
Proof.
  induction s as [|a s IH]; simpl; intro H; [reflexivity|].
  apply orb_false_iff in H. destruct H as [H1 H2].
  rewrite andb_true_r in H1. rewrite Ascii.eqb_sym, H1.
  now rewrite (IH H2).
Qed.

Lemma split_on_first (c : ascii) (s rest : string) :
  string_includes s (String c "") = false ->
  split_on c (s ++ String c rest) = s :: split_on c rest.
Proof.
  induction s as [|a s IH]; simpl; intro H.
  - now rewrite Ascii.eqb_refl.
  - apply orb_false_iff in H. destruct H as [H1 H2].
    rewrite andb_true_r in H1. rewrite Ascii.eqb_sym, H1.
    now rewrite (IH H2).
Qed.

Lemma split_on_concat (c : ascii) (ss : list string) :
  ss <> [] ->
  Forall (fun s => string_includes s (String c "") = false) ss ->
  split_on c (String.concat (String c "") ss) = ss.
Proof.
  induction ss as [|s ss IH]; [congruence|]. intros _ Hall.
  inversion Hall as [|s0 l0 Hs Hss]. subst.
  destruct ss as [|s' ss].
  - simpl. now apply split_on_absent.
  - change (String.concat (String c "") (s :: s' :: ss))
      with (s ++ String c (String.concat (String c "") (s' :: ss))).
    rewrite (split_on_first _ _ _ Hs). f_equal.
    apply IH; [discriminate | exact Hss].
Qed.

(** X14: The exported text can be cut back into the messages: when the active
    file's messages are strings without a newline, and there is at least
    one, cutting the blob at the newlines gives the messages again, one per
    line and in order. *)
Theorem export_splits_back (repoName workflowTitle : string) (logFiles : list LogFile)
    (activeTab : string) (activeFile : LogFile) (ss : list string) :
  find (fun file => name file =? activeTab) logFiles = Some activeFile ->
  map message (logs activeFile) = map Str ss ->
  ss <> [] ->
  Forall (fun s => string_includes s newline = false) ss ->
  exists d,
    downloadLogs repoName workflowTitle logFiles activeTab = Some d /\
    split_on newline_char (content d) = ss.
Proof.
  intros Hfind Hmsg Hne Hall. unfold downloadLogs. rewrite Hfind.
  destruct logFiles as [|lf lfs]; [discriminate|]. simpl.
  eexists. split; [reflexivity|]. simpl.
  rewrite Hmsg, join_strings. now apply split_on_concat.
Qed.

End RoundTrip.

(** ** Witnesses of the further properties *)

Lemma rejections_are_rethrown_witness :
  fetchRepositories offline "token"
  = {| console_error := [("Error fetching repositories:", TypeError)];
       settled := Throw TypeError |} /\
  fetchWorkflowLogs (fun _ => Ok {| ok := true; json := Throw SyntaxError |})
    "token" "owner" "repo" "42"
  = {| console_error := [("Error fetching workflow logs:", SyntaxError)];
       settled := Throw SyntaxError |}.
Proof.
  split.
  - apply (rejections_are_rethrown offline "token" "owner" "repo" "42" TypeError).
    left. reflexivity.
  - apply (rejections_are_rethrown
             (fun _ => Ok {| ok := true; json := Throw SyntaxError |})
             "token" "owner" "repo" "42" SyntaxError).
    right. eexists. repeat split; reflexivity.
Defined.

Lemma workflows_follow_storeLogs_witness :
  exists stats,
    settled (fetchWorkflows (answers true sample_workflows) "token" "owner" "repo")
    = Ok ([{| id := Num 7; display_title := Str "CI" |};
           {| id := Num 8; display_title := Undefined |}], stats).
Proof.
  destruct (workflows_follow_storeLogs (answers true sample_workflows)
              "token" "owner" "repo" _ _ eq_refl eq_refl eq_refl eq_refl) as [H _].
  exact (H _ eq_refl eq_refl).
Defined.

Lemma storeLogs_must_be_array_witness :
  fetchWorkflows (answers true (Obj [("storeLogs", Obj []); ("success", Num 3)]))
    "token" "owner" "repo"
  = {| console_error := [("Error fetching workflows:", TypeError)];
       settled := Throw TypeError |}.
Proof.
  apply (storeLogs_must_be_array
           (answers true (Obj [("storeLogs", Obj []); ("success", Num 3)]))
           "token" "owner" "repo" _ _ eq_refl eq_refl eq_refl eq_refl).
Defined.

Lemma requests_stay_under_prefix_witness :
  fetchWorkflowLogs (answers true sample_logs) "token" "owner" "repo" "42"
  = fetchWorkflowLogs
      (fun url => if starts_with api_prefix url
                  then Ok {| ok := true; json := Ok sample_logs |}
                  else Throw TypeError)
      "token" "owner" "repo" "42".
Proof.
  apply (requests_stay_under_prefix (answers true sample_logs)
           (fun url => if starts_with api_prefix url
                       then Ok {| ok := true; json := Ok sample_logs |}
                       else Throw TypeError)
           "token" "owner" "repo" "42").
  intros url H. rewrite H. reflexivity.
Defined.

Lemma load_needs_credentials_witness :
  render (state (loadLogs offline {| accessToken := None; ownerName := Some "owner" |}
                   "repo" "42" initial)) = Skeleton.
Proof.
  apply (load_needs_credentials offline
           {| accessToken := None; ownerName := Some "owner" |} "repo" "42" initial).
  intros t o H. discriminate H.
Defined.

Lemma failed_load_keeps_logs_witness :
  loadLogs (answers false Null) signed_in "repo" "42"
    {| logFiles := [sample_file]; activeTab := "build/1.txt"; loading := false |}
  = {| state := {| logFiles := [sample_file]; activeTab := "build/1.txt";
                   loading := false |};
       console := [("Error fetching workflow logs:",
                    Error "Failed to fetch workflow logs");
                   ("Failed to fetch logs:", Error "Failed to fetch workflow logs")];
       toasts := [toast_error "Failed to load workflow logs"] |}.
Proof.
  apply (failed_load_keeps_logs (answers false Null) signed_in "token" "owner"
           "repo" "42"
           {| logFiles := [sample_file]; activeTab := "build/1.txt"; loading := false |}
           (Error "Failed to fetch workflow logs"));
    try reflexivity; discriminate.
Defined.


Lemma groups_partition_witness :
  NoDup ["General"; "Run tests"] /\
  List.length (logs sample_file) = 3%nat.
Proof.
  destruct (groups_partition sample_file
              [("General", map entry_of [("SingleLogs", Str "Starting job");
                                         ("General", Str "Step failed")]);
               ("Run tests", map entry_of [("Run tests", Str "Task completed")])]
              eq_refl) as (Hnd & _ & _ & Hlen).
  split; [exact Hnd | exact Hlen].
Defined.

Lemma inherited_category_throws_witness :
  logsByCategory
    (Some {| name := "build/1.txt";
             logs := map entry_of [("SingleLogs", Str "Starting job");
                                   ("constructor", Str "new Job()")] |})
  = Throw TypeError.
Proof.
  apply (proj1 (inherited_category_throws
                  {| name := "build/1.txt";
                     logs := map entry_of [("SingleLogs", Str "Starting job");
                                           ("constructor", Str "new Job()")] |})).
  exists (entry_of ("constructor", Str "new Job()")).
  split; [right; left; reflexivity | reflexivity].
Defined.

Lemma general_group_merges_witness :
  group "SingleLogs"
        [("General", map entry_of [("SingleLogs", Str "Starting job");
                                   ("SingleLogs", Str "Waiting for runner")]);
         ("Run tests", map entry_of [("Run tests", Str "Task completed");
                                     ("Run tests", Str "Step failed")])]
  = @nil LogEntry.
Proof.
  destruct (general_group_merges (answers true sample_logs) "token" "owner" "repo" "42"
              (expected_files (prop sample_logs "cleanedLogs"))
              {| name := "build/1_setup.txt";
                 logs := map entry_of
                             [("SingleLogs", Str "Starting job");
                              ("SingleLogs", Str "Waiting for runner");
                              ("Run tests", Str "Task completed");
                              ("Run tests", Str "Step failed")] |}
              [("General", map entry_of [("SingleLogs", Str "Starting job");
                                         ("SingleLogs", Str "Waiting for runner")]);
               ("Run tests", map entry_of [("Run tests", Str "Task completed");
                                           ("Run tests", Str "Step failed")])]
              eq_refl (or_introl eq_refl) eq_refl)
    as (response & data & jf & _ & _ & _ & _ & _ & H & _).
  exact H.
Defined.

Lemma export_splits_back_witness :
  exists d,
    downloadLogs "repo" "CI" [sample_file] "build/1.txt" = Some d /\
    split_on newline_char (content d)
    = ["Starting job"; "Task completed"; "Step failed"].
Proof.
  apply (export_splits_back "repo" "CI" [sample_file] "build/1.txt" sample_file
           ["Starting job"; "Task completed"; "Step failed"]).
  - reflexivity.
  - reflexivity.
  - discriminate.
  - repeat constructor.
Defined.

(** ** Names are not unique *)

Section Collisions.

Lemma append_longer (a b : string) (x : ascii) : (a =? a ++ String x b) = false.
Proof.
  apply String.eqb_neq. induction a as [|y a IH]; simpl.
  - discriminate.
  - intro H. injection H as H. now apply IH.
Qed.

(** X16: Two different (job, file) pairs can get the same name, since job and
    file keys may themselves contain "/": the job [a] with the file [b/c],
    and the job [a/b] with the file [c].  Both log files are returned under
    the name [a/b/c], and an export of that name is always the first one:
    the lines of the second cannot be downloaded. *)
Theorem names_can_collide (a b c line1 line2 repoName workflowTitle : string) :
  exists first second d,
    normalize (colliding a b c line1 line2) = Ok [first; second] /\
    name first = a ++ "/" ++ b ++ "/" ++ c /\
    name second = a ++ "/" ++ b ++ "/" ++ c /\
    map message (logs first) = [Str line1] /\
    map message (logs second) = [Str line2] /\
    downloadLogs repoName workflowTitle [first; second] (name second) = Some d /\
    content d = line1.
Proof.
  exists {| name := a ++ "/" ++ (b ++ "/" ++ c);
            logs := [entry_of ("SingleLogs", Str line1)] |},
         {| name := (a ++ "/" ++ b) ++ "/" ++ c;
            logs := [entry_of ("SingleLogs", Str line2)] |}.
  eexists. split; [|split; [|split; [|split; [|split; [|split]]]]].
  - unfold normalize, colliding, get, Object_keys, process_job, process_file,
      process_category.
    repeat (progress (unfold bind; simpl;
                      rewrite ?String.eqb_refl, ?append_longer, ?push_entry_Str)).
    reflexivity.
  - reflexivity.
  - simpl. now rewrite append_assoc.
  - reflexivity.
  - reflexivity.
  - unfold downloadLogs. simpl.
    replace (a ++ String "/" (b ++ String "/" c) =? (a ++ String "/" b) ++ String "/" c)
      with true by (symmetry; apply String.eqb_eq; now rewrite append_assoc).
    reflexivity.
  - reflexivity.
Qed.

End Collisions.
